(** * timedmap: an expiring map and its cleanup scheduler

    A shallow embedding of [timedmap.go] (the [Map] type and its methods)
    and of the cleaner ([Ticker], [Cleaner], [Start], [Stop]).

    - Go's [int64] is a [Z] with the two's complement wrap-around written
      out ([wrap64]).
    - [map[interface{}]*Element] is a [gmap] from keys to heap locations
      (and a list for the entries under keys that are not equal to
      themselves); the [Element]s live in an explicit heap, so that the
      pointer returned by [Get] and mutated by [Extend] is the very cell
      stored in the map.
    - [time.Now()] reads an explicit clock: the n-th call returns [wall n].
    - A run-time panic is the [Panic] outcome of the result type. *)

From stdpp Require Import gmap strings list fin_maps.
From Stdlib Require Import ZArith Lia.

Local Open Scope Z_scope.

(* ------------------------------------------------------------------ *)
(** ** Machine integers *)

Definition int64_min : Z := - 2 ^ 63.
Definition int64_max : Z := 2 ^ 63 - 1.

Definition in_int64 (z : Z) : Prop := int64_min <= z <= int64_max.

(** Two's complement reduction of a mathematical integer to [int64]. *)
Definition wrap64 (z : Z) : Z := (z + 2 ^ 63) mod 2 ^ 64 - 2 ^ 63.

(* ------------------------------------------------------------------ *)
(** ** Outcomes: a normal result or a run-time panic *)

Inductive Res (A : Type) : Type :=
| Ok (a : A)
| Panic (msg : string).
Arguments Ok {A} a.
Arguments Panic {A} msg.


(* ------------------------------------------------------------------ *)
(** ** Data model *)

(** A value of type [interface{}]: [nil] or a boxed payload. *)
Inductive iface (V : Type) : Type :=
| Nil
| Box (v : V).
Arguments Nil {V}.
Arguments Box {V} v.

(** [type Element struct { Value interface{}; expires int64 }] *)
Record Element (V : Type) : Type := mkElement {
  Value : iface V;
  expires : Z            (* unixnano *)
}.
Arguments mkElement {V} _ _.
Arguments Value {V} _.
Arguments expires {V} _.

(** Heap locations and [*Element] pointers ([None] is Go's [nil]). *)
Abbreviation loc := nat (only parsing).
Abbreviation ptr := (option nat) (only parsing).

(** [time.Time] as an instant in nanoseconds since the Unix epoch,
    unbounded; [time.Time{}] is January 1, year 1, 00:00 UTC. *)
Abbreviation Time := Z (only parsing).
Definition zero_Time : Time := -62135596800 * 10 ^ 9.
Definition Time_Add (t : Time) (d : Z) : Time := t + d.
(** [Time.UnixNano]: seconds times 1e9 plus nanoseconds, computed in
    [int64], hence the instant reduced modulo 2^64. *)
Definition UnixNano (t : Time) : Z := wrap64 t.
(** [time.Unix(0, nsec)] *)
Definition time_Unix0 (nsec : Z) : Time := nsec.

(** A key of type [interface{}], as the built-in map treats it.
    - [Plain k]: a hashable key that is equal to itself; two such keys
      are equal exactly when their [k] are.
    - [Irreflexive]: a hashable key that is not equal to itself (a
      floating-point NaN, or a struct or array holding one); no lookup,
      assignment or [delete] ever matches it.
    - [Unhashable]: a slice, a map, a func, or a struct or array holding
      one; every access to the map with it panics. *)
Inductive Key (K : Type) : Type :=
| Plain (k : K)
| Irreflexive
| Unhashable.
Arguments Plain {K} k.
Arguments Irreflexive {K}.
Arguments Unhashable {K}.

Definition hashable {K : Type} (key : Key K) : bool :=
  match key with
  | Unhashable => false
  | _ => true
  end.

Section TimedMap.
Context {K : Type} `{Countable K} {V : Type}.

(** The clock: [wall n] is the instant returned by the n-th call of
    [time.Now()] in the run. *)
Variable wall : nat -> Time.

(** The program state seen by the map: how many times the clock was
    read, the heap of [Element]s, and [tm.container]. The map is held in
    two parts: [container] has the entries under keys equal to
    themselves, and [unfindable] the pointers stored under keys not equal
    to themselves, one for each assignment, in the order they came. *)
Record World : Type := mkWorld {
  now_calls : nat;
  heap : list (Element V);
  container : gmap K loc;
  unfindable : list loc
}.

Definition M (A : Type) : Type := World -> Res (A * World).

Definition ret {A} (a : A) : M A := fun w => Ok (a, w).

Definition bind {A B} (m : M A) (f : A -> M B) : M B :=
  fun w => match m w with
           | Ok (a, w') => f a w'
           | Panic s => Panic s
           end.

Notation "x <- c1 ;; c2" := (bind c1 (fun x => c2))
  (at level 100, c1 at next level, right associativity).
Notation "c1 ;; c2" := (bind c1 (fun _ => c2))
  (at level 100, right associativity).

(** *** Primitive effects *)

(** [time.Now()] *)
Definition time_Now : M Time :=
  fun w => Ok (wall (now_calls w),
               mkWorld (S (now_calls w)) (heap w) (container w) (unfindable w)).

(** [&Element{...}]: allocation of a fresh cell. *)
Definition new_Element (e : Element V) : M ptr :=
  fun w => Ok (Some (length (heap w)),
               mkWorld (now_calls w) (heap w ++ [e]) (container w) (unfindable w)).

(** Reading through a pointer; a nil (or invalid) pointer panics. *)
Definition load (p : ptr) : M (Element V) :=
  fun w => match p with
           | None => Panic "invalid memory address or nil pointer dereference"
           | Some l =>
               match heap w !! l with
               | Some e => Ok (e, w)
               | None => Panic "invalid memory address or nil pointer dereference"
               end
           end.

(** [atomic.LoadInt64(&e.expires)] *)
Definition atomic_LoadInt64_expires (p : ptr) : M Z :=
  e <- load p ;; ret (expires e).

(** [atomic.AddInt64(&e.expires, delta)]: wrapping addition in place. *)
Definition atomic_AddInt64_expires (p : ptr) (delta : Z) : M Z :=
  fun w => match p with
           | None => Panic "invalid memory address or nil pointer dereference"
           | Some l =>
               match heap w !! l with
               | Some e =>
                   let n := wrap64 (expires e + delta) in
                   Ok (n, mkWorld (now_calls w)
                                  (<[l := mkElement (Value e) n]> (heap w))
                                  (container w) (unfindable w))
               | None => Panic "invalid memory address or nil pointer dereference"
               end
           end.

(** [v, ok := tm.container[key]] *)
Definition container_get (key : Key K) : M (ptr * bool) :=
  fun w => match key with
           | Plain k =>
               match container w !! k with
               | Some l => Ok ((Some l, true), w)
               | None => Ok ((None, false), w)
               end
           | Irreflexive => Ok ((None, false), w)
           | Unhashable => Panic "runtime error: hash of unhashable type"
           end.

(** [tm.container[key] = p]: under a key equal to itself the pointer
    replaces the one that was there; under a key not equal to itself it
    is one more entry. Storing a nil pointer never happens in the
    source, [Set] always stores a fresh [&Element{}]. *)
Definition container_set (key : Key K) (p : ptr) : M unit :=
  fun w => match key, p with
           | Unhashable, _ => Panic "runtime error: hash of unhashable type"
           | _, None => Panic "nil element stored"
           | Plain k, Some l =>
               Ok (tt, mkWorld (now_calls w) (heap w)
                               (<[k := l]> (container w)) (unfindable w))
           | Irreflexive, Some l =>
               Ok (tt, mkWorld (now_calls w) (heap w)
                               (container w) (unfindable w ++ [l]))
           end.

(** [delete(tm.container, key)]: nothing happens for a key that is not
    equal to itself. *)
Definition container_delete (key : Key K) : M unit :=
  fun w => match key with
           | Plain k =>
               Ok (tt, mkWorld (now_calls w) (heap w)
                               (delete k (container w)) (unfindable w))
           | Irreflexive => Ok (tt, w)
           | Unhashable => Panic "runtime error: hash of unhashable type"
           end.

(** [tm.container = make(map[interface{}]*Element)] *)
Definition container_make : M unit :=
  fun w => Ok (tt, mkWorld (now_calls w) (heap w) ∅ []).

(** The number of entries of [tm.container]. *)
Definition len (w : World) : nat :=
  (size (container w) + length (unfindable w))%nat.

(** [len(tm.container)] *)
Definition container_len : M Z :=
  fun w => Ok (Z.of_nat (len w), w).

(** The pairs produced by [for k, v := range tm.container]: every entry,
    those under keys not equal to themselves included. The loop of
    [Cleanup] deletes only the key it is visiting, so every pair present
    at the start is produced exactly once. Go leaves the order open; the
    outcome of the loop does not depend on it ([Cleanup_range_order]). *)
Definition container_range : M (list (Key K * loc)) :=
  fun w => Ok (map (fun kl => (Plain kl.1, kl.2)) (map_to_list (container w))
               ++ map (fun l => (Irreflexive, l)) (unfindable w), w).

(** *** Element methods *)

(** [func (e *Element) Expires() int64] *)
Definition Element_Expires (e : ptr) : M Z := atomic_LoadInt64_expires e.

(** [func (e *Element) ExpiryTime() time.Time] *)
Definition Element_ExpiryTime (e : ptr) : M Time :=
  n <- Element_Expires e ;; ret (time_Unix0 n).

(** *** Map methods *)

(** [func New() *Map], together with a clock not yet read and an empty
    heap. *)
Definition New : World := mkWorld 0 [] ∅ [].

(** [func (tm *Map) Set(key, value interface{}, expiresAfter time.Duration)] *)
Definition Map_Set (key : Key K) (value : iface V) (expiresAfter : Z) : M unit :=
  now <- time_Now ;;
  p <- new_Element (mkElement value (UnixNano (Time_Add now expiresAfter))) ;;
  container_set key p.

(** [func (tm *Map) Get(key interface{})], returning a pointer to the [Element] and a flag *)
Definition Map_Get (key : Key K) : M (ptr * bool) :=
  r <- container_get key ;;
  let '(v, ok) := r in
  if negb ok then ret (None, false)
  else
    now <- time_Now ;;
    e <- Element_Expires v ;;
    if UnixNano now >? e then ret (None, false) else ret (v, true).

(** [func (tm *Map) GetValue(key interface{}) interface{}] *)
Definition Map_GetValue (key : Key K) : M (iface V) :=
  r <- Map_Get key ;;
  let '(v, ok) := r in
  if ok then e <- load v ;; ret (Value e) else ret Nil.

(** [func (tm *Map) GetExpires(key interface{}) (time.Time, bool)] *)
Definition Map_GetExpires (key : Key K) : M (Time * bool) :=
  r <- Map_Get key ;;
  let '(v, ok) := r in
  if ok then t <- Element_ExpiryTime v ;; ret (t, true)
  else ret (zero_Time, false).

(** [func (tm *Map) Contains(key interface{}) bool] *)
Definition Map_Contains (key : Key K) : M bool :=
  r <- Map_Get key ;;
  let '(_, ok) := r in ret ok.

(** [func (tm *Map) Remove(key interface{})] *)
Definition Map_Remove (key : Key K) : M unit := container_delete key.

(** [func (tm *Map) Extend(key interface{}, d time.Duration) bool] *)
Definition Map_Extend (key : Key K) (d : Z) : M bool :=
  r <- Map_Get key ;;
  let '(v, ok) := r in
  (if ok then atomic_AddInt64_expires v d ;; ret tt else ret tt) ;;
  ret ok.

(** [func (tm *Map) Flush()] *)
Definition Map_Flush : M unit := container_make.

(** [func (tm *Map) Size() int] *)
Definition Map_Size : M Z := container_len.

(** The body of the [range] loop of [Cleanup], over the pairs still to
    be visited; [now] was read before the loop. *)
Fixpoint Cleanup_range (now : Z) (kvs : list (Key K * loc)) : M unit :=
  match kvs with
  | [] => ret tt
  | (k, v) :: rest =>
      e <- load (Some v) ;;
      (if now >? expires e then container_delete k else ret tt) ;;
      Cleanup_range now rest
  end.

(** [func (tm *Map) Cleanup()] *)
Definition Map_Cleanup : M unit :=
  t <- time_Now ;;
  let now := UnixNano t in
  kvs <- container_range ;;
  Cleanup_range now kvs.

(** *** Views used in the statements *)

(** The pointer a lookup of [key] finds in the map, if any. *)
Definition lookup_key (w : World) (key : Key K) : option loc :=
  match key with
  | Plain k => container w !! k
  | _ => None
  end.

(** The entry a lookup of [key] finds, if any. *)
Definition stored (w : World) (key : Key K) : option (Element V) :=
  match lookup_key w key with
  | Some l => heap w !! l
  | None => None
  end.

(** The reading of the clock that the next [time.Now().UnixNano()]
    returns in [w]. *)
Definition next_now (w : World) : Z := UnixNano (wall (now_calls w)).

(** [w] after one more reading of the clock. *)
Definition ticked (w : World) : World :=
  mkWorld (S (now_calls w)) (heap w) (container w) (unfindable w).

(** Well-formed states: every pointer of the map is allocated and no
    [Element] is held by two entries. *)
Definition wf (w : World) : Prop :=
  (forall k l, container w !! k = Some l -> (l < length (heap w))%nat) /\
  (forall k1 k2 l, container w !! k1 = Some l ->
                   container w !! k2 = Some l -> k1 = k2) /\
  Forall (fun l => (l < length (heap w))%nat) (unfindable w) /\
  NoDup (unfindable w) /\
  (forall k l, container w !! k = Some l -> l ∉ unfindable w).

End TimedMap.

(* ------------------------------------------------------------------ *)
(** ** Sequences of calls on the map *)

(** One call of the public interface of [Map]. *)
Inductive MapCall (K V : Type) : Type :=
| CallSet (key : Key K) (value : iface V) (expiresAfter : Z)
| CallGet (key : Key K)
| CallGetValue (key : Key K)
| CallGetExpires (key : Key K)
| CallContains (key : Key K)
| CallRemove (key : Key K)
| CallExtend (key : Key K) (d : Z)
| CallFlush
| CallSize
| CallCleanup.
Arguments CallSet {K V} _ _ _.
Arguments CallGet {K V} _.
Arguments CallGetValue {K V} _.
Arguments CallGetExpires {K V} _.
Arguments CallContains {K V} _.
Arguments CallRemove {K V} _.
Arguments CallExtend {K V} _ _.
Arguments CallFlush {K V}.
Arguments CallSize {K V}.
Arguments CallCleanup {K V}.

(** Whether the key passed in the call, if there is one, is hashable. *)
Definition call_hashable {K V : Type} (c : MapCall K V) : bool :=
  match c with
  | CallSet k _ _ | CallGet k | CallGetValue k | CallGetExpires k
  | CallContains k | CallRemove k | CallExtend k _ => hashable k
  | CallFlush | CallSize | CallCleanup => true
  end.

Section MapCalls.
Context {K : Type} `{Countable K} {V : Type}.
Variable wall : nat -> Time.

(** Performs the call and drops what it returns. *)
Definition call (c : MapCall K V) : M (K:=K) (V:=V) unit :=
  match c with
  | CallSet k v d => Map_Set wall k v d
  | CallGet k => bind (Map_Get wall k) (fun _ => ret tt)
  | CallGetValue k => bind (Map_GetValue wall k) (fun _ => ret tt)
  | CallGetExpires k => bind (Map_GetExpires wall k) (fun _ => ret tt)
  | CallContains k => bind (Map_Contains wall k) (fun _ => ret tt)
  | CallRemove k => Map_Remove k
  | CallExtend k d => bind (Map_Extend wall k d) (fun _ => ret tt)
  | CallFlush => Map_Flush
  | CallSize => bind Map_Size (fun _ => ret tt)
  | CallCleanup => Map_Cleanup wall
  end.

Fixpoint calls (cs : list (MapCall K V)) : M (K:=K) (V:=V) unit :=
  match cs with
  | [] => ret tt
  | c :: cs' => bind (call c) (fun _ => calls cs')
  end.

(** The state after the calls, when none of them panics. *)
Definition after (cs : list (MapCall K V)) (w : World) : option World :=
  match calls cs w with
  | Ok (_, w') => Some w'
  | Panic _ => None
  end.
End MapCalls.

(* ------------------------------------------------------------------ *)
(** ** The cleaner *)

(** A [chan struct{}] on which nothing is ever sent. *)
Inductive chan : Type := ChanOpen | ChanClosed.

(** [close(ch)]: closing a closed channel is a run-time panic. *)
Definition close (ch : chan) : Res chan :=
  match ch with
  | ChanOpen => Ok ChanClosed
  | ChanClosed => Panic "close of closed channel"
  end.

(** A receive from such a channel can proceed exactly when it is closed. *)
Definition chan_ready (ch : chan) : bool :=
  match ch with
  | ChanOpen => false
  | ChanClosed => true
  end.

(** [type Ticker interface { Chan() <-chan time.Time; Stop() }].
    The state of a ticker includes its channel: whether a receive from
    [Chan()] can proceed, the state after that receive, the state after
    [Stop()], and the state after the tick source has fired. *)
Class Ticker (T : Type) : Type := {
  Ticker_Chan_ready : T -> bool;
  Ticker_Chan_recv : T -> T;
  Ticker_Stop : T -> T;
  Ticker_fire : T -> T
}.

(** [type DefaultTicker time.Ticker]: a channel with room for one tick;
    a tick that finds the channel full is dropped, and after [Stop] no
    tick is sent any more (the channel is not closed). *)
Record DefaultTicker : Type := mkDefaultTicker {
  C_full : bool;
  active : bool
}.

#[export] Instance DefaultTicker_Ticker : Ticker DefaultTicker := {
  Ticker_Chan_ready t := C_full t;
  Ticker_Chan_recv t := mkDefaultTicker false (active t);
  Ticker_Stop t := mkDefaultTicker (C_full t) false;
  Ticker_fire t := if active t then mkDefaultTicker true (active t) else t
}.

(** [time.NewTicker(d)]: it panics when [d] is not positive. *)
Definition time_NewTicker (d : Z) : Res DefaultTicker :=
  if d <=? 0 then Panic "non-positive interval for NewTicker"
  else Ok (mkDefaultTicker false true).

(** A ticker driven by hand, as [NewCleanerCustom] admits: the number of
    ticks waiting in its channel; its [Stop] leaves the channel alone. *)
Record ManualTicker : Type := mkManualTicker { waiting : nat }.

#[export] Instance ManualTicker_Ticker : Ticker ManualTicker := {
  Ticker_Chan_ready t := negb (Nat.eqb (waiting t) 0);
  Ticker_Chan_recv t := mkManualTicker (Nat.pred (waiting t));
  Ticker_Stop t := t;
  Ticker_fire t := mkManualTicker (S (waiting t))
}.

(** What a statement hands to the statement around it. *)
Inductive signal : Type := Normal | Break.

(** The two cases of the [select] of [Start]. *)
Inductive select_case : Type := CaseTick | CaseStop.

(** What the [for] does after one run of its body. *)
Inductive loop_ctl : Type := LoopAgain | LoopExit.

Section Cleaner.
Context {T : Type} `{Ticker T}.
(** The state the callbacks act on. *)
Context {S : Type}.

(** A [func()]: it changes the program state or panics. *)
Definition callback : Type := S -> Res S.

(** [type Cleanable interface { Cleanup() }] *)
Record Cleanable : Type := mkCleanable { Cleanup : callback }.

(** [type Cleaner struct]; [qMutex] only serialises accesses to
    [onTickQ], which the steps below perform one at a time. *)
Record Cleaner : Type := mkCleaner {
  ticker : T;
  stopChan : chan;
  onTickQ : list callback
}.

(** [func NewCleanerCustom(ticker Ticker) *Cleaner] *)
Definition NewCleanerCustom (t : T) : Cleaner := mkCleaner t ChanOpen [].

(** [func (c *Cleaner) AddCallback(onTicks ...func())] *)
Definition Cleaner_AddCallback (onTicks : list callback) (c : Cleaner) : Cleaner :=
  mkCleaner (ticker c) (stopChan c) (onTickQ c ++ onTicks).

(** [func (c *Cleaner) AddCleanable(cleanable Cleanable)] *)
Definition Cleaner_AddCleanable (cleanable : Cleanable) (c : Cleaner) : Cleaner :=
  Cleaner_AddCallback [Cleanup cleanable] c.

(** [func (c *Cleaner) Stop()] *)
Definition Cleaner_Stop (c : Cleaner) : Res Cleaner :=
  let t := Ticker_Stop (ticker c) in
  match close (stopChan c) with
  | Ok ch => Ok (mkCleaner t ch (onTickQ c))
  | Panic m => Panic m
  end.

(** The program: the cleaner, the state its callbacks act on, and the
    number of goroutines spawned by [Start] that have not returned. *)
Record Sys : Type := mkSys {
  cleaner : Cleaner;
  shared : S;
  goroutines : nat
}.

(** [func (c *Cleaner) Start()]: [go func() { ... }()] *)
Definition Cleaner_Start (sy : Sys) : Sys :=
  mkSys (cleaner sy) (shared sy) (Datatypes.S (goroutines sy)).

(** [for _, fn := range c.onTickQ { fn() }] *)
Fixpoint run_callbacks (q : list callback) (s : S) : Res S :=
  match q with
  | [] => Ok s
  | fn :: q' =>
      match fn s with
      | Ok s' => run_callbacks q' s'
      | Panic m => Panic m
      end
  end.

(** [case <-c.ticker.Chan():] and its body. *)
Definition case_tick (sy : Sys) : Res (signal * Sys) :=
  let c := cleaner sy in
  let t := Ticker_Chan_recv (ticker c) in
  match run_callbacks (onTickQ c) (shared sy) with
  | Ok s' => Ok (Normal, mkSys (mkCleaner t (stopChan c) (onTickQ c)) s' (goroutines sy))
  | Panic m => Panic m
  end.

(** [case <-c.stopChan: break] *)
Definition case_stop (sy : Sys) : Res (signal * Sys) := Ok (Break, sy).

Definition case_ready (pick : select_case) (sy : Sys) : bool :=
  match pick with
  | CaseTick => Ticker_Chan_ready (ticker (cleaner sy))
  | CaseStop => chan_ready (stopChan (cleaner sy))
  end.

(** A [break] ends the innermost [for], [switch] or [select]: the one
    raised in a case of a [select] ends that [select]. *)
Definition select_catches (sg : signal) : signal :=
  match sg with
  | Break => Normal
  | Normal => Normal
  end.

(** [select { ... }] when the run time picks [pick]; [None] when that
    case cannot proceed. *)
Definition select_stmt (pick : select_case) (sy : Sys) : option (Res (signal * Sys)) :=
  if case_ready pick sy then
    Some match (match pick with
                | CaseTick => case_tick sy
                | CaseStop => case_stop sy
                end) with
         | Ok (sg, sy') => Ok (select_catches sg, sy')
         | Panic m => Panic m
         end
  else None.

(** One iteration of [for { select { ... } }]: a [Break] reaching the
    [for] leaves the loop, anything else starts the next iteration. *)
Definition for_iteration (pick : select_case) (sy : Sys) : option (Res (loop_ctl * Sys)) :=
  match select_stmt pick sy with
  | None => None
  | Some (Panic m) => Some (Panic m)
  | Some (Ok (Break, sy')) => Some (Ok (LoopExit, sy'))
  | Some (Ok (Normal, sy')) => Some (Ok (LoopAgain, sy'))
  end.

(** Whether an iteration leaves the loop. *)
Definition leaves_loop (r : option (Res (loop_ctl * Sys))) : bool :=
  match r with
  | Some (Ok (LoopExit, _)) => true
  | _ => false
  end.

(** What happens in a run: calls of the interface, the tick source
    firing, and one goroutine performing one iteration of its loop. *)
Inductive event : Type :=
| EvAddCallback (onTicks : list callback)
| EvStart
| EvStop
| EvFire
| EvIterate (pick : select_case).



(** An iteration needs a goroutine and a case that can proceed;
    otherwise nothing happens. *)
Definition step (ev : event) (sy : Sys) : Res Sys :=
  match ev with
  | EvAddCallback fns =>
      Ok (mkSys (Cleaner_AddCallback fns (cleaner sy)) (shared sy) (goroutines sy))
  | EvStart => Ok (Cleaner_Start sy)
  | EvStop =>
      match Cleaner_Stop (cleaner sy) with
      | Ok c => Ok (mkSys c (shared sy) (goroutines sy))
      | Panic m => Panic m
      end
  | EvFire =>
      let c := cleaner sy in
      Ok (mkSys (mkCleaner (Ticker_fire (ticker c)) (stopChan c) (onTickQ c))
                (shared sy) (goroutines sy))
  | EvIterate pick =>
      match goroutines sy with
      | O => Ok sy
      | Datatypes.S n =>
          match for_iteration pick sy with
          | None => Ok sy
          | Some (Panic m) => Panic m
          | Some (Ok (LoopAgain, sy')) => Ok sy'
          | Some (Ok (LoopExit, sy')) => Ok (mkSys (cleaner sy') (shared sy') n)
          end
      end
  end.

Fixpoint run (evs : list event) (sy : Sys) : Res Sys :=
  match evs with
  | [] => Ok sy
  | ev :: evs' =>
      match step ev sy with
      | Ok sy' => run evs' sy'
      | Panic m => Panic m
      end
  end.

(** The program right after [NewCleanerCustom(t)]. *)
Definition boot (t : T) (s : S) : Sys := mkSys (NewCleanerCustom t) s 0.

End Cleaner.

(** [var _ Cleanable = ( *Map)(nil)]: the map is a [Cleanable]. *)
Definition Map_Cleanable {K : Type} `{Countable K} {V : Type} (wall : nat -> Time)
  : Cleanable (S := World (K:=K) (V:=V)) :=
  mkCleanable (fun w => match Map_Cleanup wall w with
                        | Ok (_, w') => Ok w'
                        | Panic m => Panic m
                        end).

(** [func NewCleaner(dura time.Duration) *Cleaner] *)
Definition NewCleaner {S : Type} (dura : Z) : Res (Cleaner (T:=DefaultTicker) (S:=S)) :=
  match time_NewTicker dura with
  | Ok t => Ok (NewCleanerCustom t)
  | Panic m => Panic m
  end.

(* ------------------------------------------------------------------ *)
(** ** Concrete runs used below *)

(** A clock that starts at [t0] and advances by [dt] at every reading. *)
Definition clock_from (t0 dt : Z) : nat -> Time :=
  fun n => t0 + dt * Z.of_nat n.

(** A callback that counts how often it ran. *)
Definition count_cb : callback (S:=nat) := fun n => Ok (Datatypes.S n).

(** The state reached from [New] by the calls [cs] under the clock
    [wall] (and [New] itself, should one of the calls panic). *)
Definition reach {K : Type} `{Countable K} {V : Type} (wall : nat -> Time)
    (cs : list (MapCall K V)) : World (K:=K) (V:=V) :=
  match after wall cs New with
  | Some w => w
  | None => New
  end.

(** A clock read at 1000, 1010, 1020, ... *)
Definition demo_clock : nat -> Time := clock_from 1000 10.

(** A clock that stands still at 1000. *)
Definition still_clock : nat -> Time := clock_from 1000 0.

(** A clock started in September 2026 that advances by a microsecond at
    every reading, and the same clock standing still. *)
Definition clock_2026 : nat -> Time := clock_from 1790000000000000000 1000.
Definition still_2026 : nat -> Time := clock_from 1790000000000000000 0.

(** [time.Hour] *)
Definition time_Hour : Z := 3600 * 10 ^ 9.

(** A map in which ["a"] expires at 1010, the instant the clock shows at
    its next reading. *)
Definition at_expiry : World (K:=string) (V:=Z) :=
  reach demo_clock [CallSet (Plain "a"%string) (Box 1) 10].

(** A map in which ["a"] expires at 1025 and ["b"] at 1015; the next
    reading of the clock is 1020. *)
Definition two_entries : World (K:=string) (V:=Z) :=
  reach demo_clock [CallSet (Plain "a"%string) (Box 1) 25; CallSet (Plain "b"%string) (Box 2) 5].

(** A map in which ["a"] was set for an hour in 2026. *)
Definition set_for_an_hour : World (K:=string) (V:=Z) :=
  reach clock_2026 [CallSet (Plain "a"%string) (Box 1) time_Hour].

(** The map after [Set("a", 1, ttl)] with the largest [ttl] there is,
    under the clock of 2026 standing still. *)
Definition born_expired : World (K:=string) (V:=Z) :=
  reach still_2026 [CallSet (Plain "a"%string) (Box 1) int64_max].

(** A clock that stands still at 2000. *)
Definition late_clock : nat -> Time := clock_from 2000 0.

(** A callback that appends its name to a log. *)
Definition log_cb {A : Type} (a : A) : callback (S:=list A) :=
  fun l => Ok (l ++ [a]).

(** The calls of [Start] among the events of a run. *)
Definition is_start {S : Type} (ev : event (S:=S)) : bool :=
  match ev with
  | EvStart => true
  | _ => false
  end.

(** [Set] for each item of a list, in order. *)
Definition set_each {K V : Type} (items : list (K * iface V * Z)) : list (MapCall K V) :=
  map (fun i => CallSet (Plain i.1.1) i.1.2 i.2) items.

(** A map holding one entry under a key that is not equal to itself,
    set at 1000 for 5; the next reading of the clock is 1010. *)
Definition nan_entry : World (K:=string) (V:=Z) :=
  reach demo_clock [CallSet Irreflexive (Box 1) 5].



(* ------------------------------------------------------------------ *)
(** * Properties *)

(** ** Machine integers *)

Lemma wrap64_id (z : Z) : in_int64 z -> wrap64 z = z.
Proof.
  unfold in_int64, int64_min, int64_max, wrap64. intros Hz.
  rewrite Z.mod_small by lia. lia.
Qed.

Lemma wrap64_range (z : Z) : in_int64 (wrap64 z).
Proof.
  unfold in_int64, int64_min, int64_max, wrap64.
  pose proof (Z.mod_pos_bound (z + 2 ^ 63) (2 ^ 64) ltac:(lia)). lia.
Qed.

(** ** The map *)

Section MapFacts.
Context {K : Type} `{Countable K} {V : Type}.
Variable wall : nat -> Time.
Implicit Types (w : World (K:=K) (V:=V)) (k : K) (key : Key K) (e : Element V).

Ltac unfold_prims :=
  unfold Element_ExpiryTime, Element_Expires, atomic_LoadInt64_expires,
    atomic_AddInt64_expires, load, container_get, container_set,
    container_delete, container_make, container_len, container_range,
    new_Element, time_Now, bind, ret in *.

Lemma lookup_key_Some w key l :
  lookup_key w key = Some l <->
  exists k, key = Plain k /\ container w !! k = Some l.
Proof.
  split.
  - destruct key as [k| |]; simpl; [eauto | done | done].
  - by intros (k & -> & ?).
Qed.

Lemma lookup_key_hashable w key l :
  lookup_key w key = Some l -> hashable key = true.
Proof. by destruct key. Qed.

Lemma stored_Some w key e :
  stored w key = Some e <->
  exists l, lookup_key w key = Some l /\ heap w !! l = Some e.
Proof.
  unfold stored. split.
  - destruct (lookup_key w key) as [l|] eqn:E; [eauto | discriminate].
  - intros (l & -> & ?). done.
Qed.

Lemma stored_ticked w key : stored (ticked w) key = stored w key.
Proof. reflexivity. Qed.

Lemma wf_stored_None w key :
  wf w -> stored w key = None -> lookup_key w key = None.
Proof.
  intros [Hal _] Hs. unfold stored in Hs.
  destruct (lookup_key w key) as [l|] eqn:E; [|done].
  apply lookup_key_Some in E as (k & -> & E).
  apply Hal in E. apply lookup_lt_is_Some_2 in E as [e He].
  rewrite He in Hs. discriminate.
Qed.

(** What [Get] computes, case by case. *)
Lemma Map_Get_eq w key :
  Map_Get wall key w =
  if hashable key then
    match lookup_key w key with
    | None => Ok ((None, false), w)
    | Some l =>
        match heap w !! l with
        | Some e =>
            if next_now wall w >? expires e
            then Ok ((None, false), ticked w)
            else Ok ((Some l, true), ticked w)
        | None => Panic "invalid memory address or nil pointer dereference"
        end
    end
  else Panic "runtime error: hash of unhashable type".
Proof.
  unfold Map_Get. unfold_prims. destruct key as [k| |]; simpl; [|done|done].
  destruct (container w !! k) as [l|]; simpl; [|done].
  destruct (heap w !! l) as [e|]; simpl; [|done].
  unfold next_now, ticked. by destruct (_ >? _).
Qed.

Lemma Map_Get_absent w key :
  hashable key = true -> lookup_key w key = None ->
  Map_Get wall key w = Ok ((None, false), w).
Proof. intros Hh E. by rewrite Map_Get_eq, Hh, E. Qed.

Lemma Map_Get_unhashable w :
  Map_Get wall Unhashable w = Panic "runtime error: hash of unhashable type".
Proof. by rewrite Map_Get_eq. Qed.

Lemma Map_Get_live w key l e :
  lookup_key w key = Some l -> heap w !! l = Some e ->
  next_now wall w <= expires e ->
  Map_Get wall key w = Ok ((Some l, true), ticked w).
Proof.
  intros E1 E2 Hle. rewrite Map_Get_eq, (lookup_key_hashable _ _ _ E1), E1, E2.
  destruct (Z.gtb_spec (next_now wall w) (expires e)); [lia | done].
Qed.

Lemma Map_Get_expired w key l e :
  lookup_key w key = Some l -> heap w !! l = Some e ->
  next_now wall w > expires e ->
  Map_Get wall key w = Ok ((None, false), ticked w).
Proof.
  intros E1 E2 Hgt. rewrite Map_Get_eq, (lookup_key_hashable _ _ _ E1), E1, E2.
  destruct (Z.gtb_spec (next_now wall w) (expires e)); [done | lia].
Qed.

Lemma Map_GetValue_eq w key :
  Map_GetValue wall key w =
  match Map_Get wall key w with
  | Ok ((Some l, true), w') =>
      match heap w' !! l with
      | Some e => Ok (Value e, w')
      | None => Panic "invalid memory address or nil pointer dereference"
      end
  | Ok ((None, true), w') => Panic "invalid memory address or nil pointer dereference"
  | Ok ((_, false), w') => Ok (Nil, w')
  | Panic m => Panic m
  end.
Proof.
  unfold Map_GetValue, bind at 1.
  destruct (Map_Get wall key w) as [[[p ok] w']|m]; [|done].
  destruct ok; [|by destruct p].
  unfold_prims. destruct p as [l|]; [|done]. by destruct (heap w' !! l).
Qed.

Lemma Map_Contains_eq w key :
  Map_Contains wall key w =
  match Map_Get wall key w with
  | Ok ((_, ok), w') => Ok (ok, w')
  | Panic m => Panic m
  end.
Proof.
  unfold Map_Contains, bind at 1.
  by destruct (Map_Get wall key w) as [[[p ok] w']|m].
Qed.

Lemma Map_GetExpires_eq w key :
  Map_GetExpires wall key w =
  match Map_Get wall key w with
  | Ok ((Some l, true), w') =>
      match heap w' !! l with
      | Some e => Ok ((expires e, true), w')
      | None => Panic "invalid memory address or nil pointer dereference"
      end
  | Ok ((None, true), w') => Panic "invalid memory address or nil pointer dereference"
  | Ok ((_, false), w') => Ok ((zero_Time, false), w')
  | Panic m => Panic m
  end.
Proof.
  unfold Map_GetExpires, bind at 1.
  destruct (Map_Get wall key w) as [[[p ok] w']|m]; [|done].
  destruct ok; [|by destruct p].
  unfold_prims. destruct p as [l|]; [|done]. by destruct (heap w' !! l).
Qed.

(** *** Well-formed states *)

Lemma wf_New : wf (New (K:=K) (V:=V)).
Proof.
  repeat split; try (intros *; simpl; rewrite lookup_empty; discriminate).
  - constructor.
  - constructor.
Qed.

Lemma wf_same w w' :
  heap w' = heap w -> container w' = container w ->
  unfindable w' = unfindable w -> wf w -> wf w'.
Proof. unfold wf. intros -> -> ->. done. Qed.

Lemma wf_ticked w : wf w -> wf (ticked w).
Proof. by apply wf_same. Qed.

Lemma wf_shrink w w' :
  length (heap w') = length (heap w) ->
  (forall k l, container w' !! k = Some l -> container w !! k = Some l) ->
  unfindable w' = unfindable w ->
  wf w -> wf w'.
Proof.
  intros Hlen Hsub Hun (Hal & Hinj & Hual & Hnd & Hdis). unfold wf.
  rewrite Hun, Hlen. repeat split; eauto.
Qed.

(** *** Set *)

Lemma Map_Set_eq w key (v : iface V) d :
  Map_Set wall key v d w =
  match key with
  | Plain k =>
      Ok (tt, mkWorld (S (now_calls w))
                (heap w ++ [mkElement v (wrap64 (wall (now_calls w) + d))])
                (<[k := length (heap w)]> (container w)) (unfindable w))
  | Irreflexive =>
      Ok (tt, mkWorld (S (now_calls w))
                (heap w ++ [mkElement v (wrap64 (wall (now_calls w) + d))])
                (container w) (unfindable w ++ [length (heap w)]))
  | Unhashable => Panic "runtime error: hash of unhashable type"
  end.
Proof. by destruct key. Qed.

Lemma wf_Set w key (v : iface V) d w' :
  wf w -> Map_Set wall key v d w = Ok (tt, w') -> wf w'.
Proof.
  intros (Hal & Hinj & Hual & Hnd & Hdis). rewrite Map_Set_eq.
  destruct key as [k| |]; [| |done]; intros [= <-]; unfold wf; simpl;
    rewrite length_app; simpl.
  - split; [|split; [|split; [|split]]].
    + intros k' l. rewrite lookup_insert.
      case_decide; [intros [= <-]; lia|]. intros E%Hal. lia.
    + intros k1 k2 l. rewrite !lookup_insert.
      repeat case_decide; subst; try done.
      * intros [= <-] E%Hal. lia.
      * intros E%Hal [= <-]. lia.
      * eauto.
    + eapply Forall_impl; [exact Hual|]. simpl. lia.
    + done.
    + intros k' l. rewrite lookup_insert. case_decide.
      * intros [= <-] Hin. rewrite Forall_forall in Hual.
        apply Hual in Hin. lia.
      * eauto.
  - split; [|split; [|split; [|split]]].
    + intros k' l E%Hal. lia.
    + done.
    + apply Forall_app. split.
      * eapply Forall_impl; [exact Hual|]. simpl. lia.
      * apply Forall_singleton. lia.
    + apply NoDup_app. split; [done|]. split; [|apply NoDup_singleton].
      intros l Hin ->%list_elem_of_singleton.
      rewrite Forall_forall in Hual. apply Hual in Hin. lia.
    + intros k' l E [Hin| ->%list_elem_of_singleton]%elem_of_app.
      * by apply (Hdis k' l).
      * apply Hal in E. lia.
Qed.

Lemma stored_Set_same w k (v : iface V) d w' :
  Map_Set wall (Plain k) v d w = Ok (tt, w') ->
  stored w' (Plain k) = Some (mkElement v (wrap64 (wall (now_calls w) + d))).
Proof.
  rewrite Map_Set_eq. intros [= <-]. unfold stored. simpl.
  rewrite lookup_insert_eq. by rewrite lookup_app_r, Nat.sub_diag.
Qed.

Lemma stored_Set_other w key (v : iface V) d w' key' :
  wf w -> Map_Set wall key v d w = Ok (tt, w') -> key' <> key ->
  stored w' key' = stored w key'.
Proof.
  intros [Hal _]. rewrite Map_Set_eq.
  destruct key as [k| |]; [| |done]; intros [= <-] Hne; unfold stored.
  - destruct key' as [k'| |]; simpl; [|done|done].
    rewrite lookup_insert_ne by congruence.
    destruct (container w !! k') as [l|] eqn:E; [|done].
    apply Hal in E. by rewrite lookup_app_l.
  - destruct key' as [k'| |]; simpl; [|done|done].
    destruct (container w !! k') as [l|] eqn:E; [|done].
    apply Hal in E. by rewrite lookup_app_l.
Qed.

(** *** Extend *)

Lemma Map_Extend_eq w key d :
  Map_Extend wall key d w =
  match Map_Get wall key w with
  | Ok ((Some l, true), w') =>
      match heap w' !! l with
      | Some e =>
          Ok (true, mkWorld (now_calls w')
                            (<[l := mkElement (Value e) (wrap64 (expires e + d))]> (heap w'))
                            (container w') (unfindable w'))
      | None => Panic "invalid memory address or nil pointer dereference"
      end
  | Ok ((None, true), w') => Panic "invalid memory address or nil pointer dereference"
  | Ok ((_, false), w') => Ok (false, w')
  | Panic m => Panic m
  end.
Proof.
  unfold Map_Extend, bind at 1.
  destruct (Map_Get wall key w) as [[[p ok] w']|m]; [|done].
  destruct ok; [|by destruct p].
  unfold_prims. destruct p as [l|]; [|done]. by destruct (heap w' !! l).
Qed.

(** *** Cleanup *)

Lemma Cleanup_range_spec now (kvs : list (Key K * nat)) :
  forall w,
  (forall key l, (key, l) ∈ kvs ->
                 is_Some (heap w !! l) /\ hashable key = true) ->
  exists c',
    Cleanup_range now kvs w
      = Ok (tt, mkWorld (now_calls w) (heap w) c' (unfindable w)) /\
    (forall k, c' !! k = None \/ c' !! k = container w !! k) /\
    (forall k, c' !! k = None <->
       container w !! k = None \/
       exists l e, (Plain k, l) ∈ kvs /\ heap w !! l = Some e /\ now > expires e).
Proof.
  induction kvs as [|[key0 l0] rest IH]; intros w Hheap.
  - exists (container w). split; [by destruct w|]. split; [by right|].
    intros k. split; [by left|]. intros [E|(l & e & Hin & _)]; [done|].
    by apply elem_of_nil in Hin.
  - destruct (Hheap key0 l0) as [[e0 He0] Hh0]; [by left|].
    assert (Hrest : forall key l, (key, l) ∈ rest ->
              is_Some (heap w !! l) /\ hashable key = true).
    { intros key l Hin. apply (Hheap key l). by right. }
    simpl. unfold bind at 1. unfold load. rewrite He0.
    unfold bind at 1.
    destruct (Z.gtb_spec now (expires e0)) as [Hgt|Hle];
      [destruct key0 as [k0| |]; [| |done]|].
    + unfold container_delete.
      destruct (IH (mkWorld (now_calls w) (heap w) (delete k0 (container w))
                      (unfindable w))) as (c' & Hrun & Hsub & Hiff); [done|].
      simpl in *. exists c'. split; [done|]. split.
      * intros k. destruct (Hsub k) as [E|E]; [by left|].
        rewrite E, lookup_delete. case_decide; [by left | by right].
      * intros k. rewrite Hiff, lookup_delete. split.
        -- intros [E|(l & e & Hin & He & Hexp)].
           ++ case_decide; subst; [|by left].
              right. exists l0, e0. split; [by left|]. split; [done | lia].
           ++ right. exists l, e. split; [by right | done].
        -- intros [E|(l & e & Hin & He & Hexp)].
           ++ left. by case_decide.
           ++ apply elem_of_cons in Hin as [[= -> ->]|Hin].
              ** left. by rewrite decide_True.
              ** right. by exists l, e.
    + unfold container_delete.
      destruct (IH w Hrest) as (c' & Hrun & Hsub & Hiff).
      exists c'. split; [done|]. split; [done|].
      intros k. rewrite Hiff. split.
      * intros [E|(l & e & Hin & He & Hexp)]; [by left|].
        right. exists l, e. split; [by right | done].
      * intros [E|(l & e & Hin & He & Hexp)]; [by left|].
        apply elem_of_cons in Hin as [[=]|Hin].
        right. by exists l, e.
    + unfold ret.
      destruct (IH w Hrest) as (c' & Hrun & Hsub & Hiff).
      exists c'. split; [done|]. split; [done|].
      intros k. rewrite Hiff. split.
      * intros [E|(l & e & Hin & He & Hexp)]; [by left|].
        right. exists l, e. split; [by right | done].
      * intros [E|(l & e & Hin & He & Hexp)]; [by left|].
        apply elem_of_cons in Hin as [[= -> ->]|Hin].
        -- rewrite He0 in He. injection He as <-. lia.
        -- right. by exists l, e.
Qed.

(** The order in which [range] produces the pairs does not matter. *)
Lemma Cleanup_range_order now (kvs1 kvs2 : list (Key K * nat)) w :
  kvs1 ≡ₚ kvs2 ->
  (forall key l, (key, l) ∈ kvs1 ->
                 is_Some (heap w !! l) /\ hashable key = true) ->
  Cleanup_range now kvs1 w = Cleanup_range now kvs2 w.
Proof.
  intros Hp Hheap.
  destruct (Cleanup_range_spec now kvs1 w Hheap) as (c1 & -> & Hsub1 & Hiff1).
  destruct (Cleanup_range_spec now kvs2 w) as (c2 & -> & Hsub2 & Hiff2).
  { intros key l Hin. apply (Hheap key l). by rewrite Hp. }
  do 2 f_equal. f_equal. apply map_eq. intros k.
  assert (Hsame : c1 !! k = None <-> c2 !! k = None).
  { rewrite Hiff1, Hiff2. by setoid_rewrite Hp. }
  destruct (Hsub1 k) as [E1|E1], (Hsub2 k) as [E2|E2].
  - by rewrite E1, E2.
  - rewrite E1. symmetry. by apply Hsame.
  - rewrite E2. by apply Hsame.
  - by rewrite E1, E2.
Qed.

Lemma elem_of_range w k l :
  (Plain k, l) ∈ map (fun kl : K * nat => (Plain kl.1, kl.2)) (map_to_list (container w))
                 ++ map (fun l : nat => (Irreflexive (K:=K), l)) (unfindable w)
  <-> container w !! k = Some l.
Proof.
  rewrite elem_of_app, !list_elem_of_fmap. split.
  - intros [([k' l'] & [= -> ->] & Hin)|(l' & [=] & _)].
    by apply elem_of_map_to_list.
  - intros E. left. exists (k, l). split; [done|]. by apply elem_of_map_to_list.
Qed.

(** [Cleanup] on a well-formed state: it returns, reads the clock once,
    leaves the heap and the entries under keys not equal to themselves
    alone, and keeps under each key what was there unless the entry's
    expiry is strictly before that one reading. *)
Lemma Map_Cleanup_spec w :
  wf w ->
  exists w',
    Map_Cleanup wall w = Ok (tt, w') /\
    now_calls w' = S (now_calls w) /\
    heap w' = heap w /\
    unfindable w' = unfindable w /\
    (forall k l, container w' !! k = Some l -> container w !! k = Some l) /\
    (forall key, stored w' key =
               match stored w key with
               | Some e => if next_now wall w >? expires e then None else Some e
               | None => None
               end).
Proof.
  intros (Hal & Hinj & Hual & _). unfold Map_Cleanup, bind at 1. unfold time_Now.
  unfold bind at 1. unfold container_range. simpl.
  destruct (Cleanup_range_spec (UnixNano (wall (now_calls w)))
              (map (fun kl => (Plain kl.1, kl.2)) (map_to_list (container w))
               ++ map (fun l => (Irreflexive, l)) (unfindable w))
              (mkWorld (S (now_calls w)) (heap w) (container w) (unfindable w)))
    as (c' & Hrun & Hsub & Hiff).
  { simpl. intros key l.
    rewrite elem_of_app, !list_elem_of_fmap.
    intros [([k' l'] & [= -> ->] & Hin%elem_of_map_to_list)|(l' & [= -> ->] & Hin)].
    - split; [|done]. apply lookup_lt_is_Some_2. eauto.
    - split; [|done]. apply lookup_lt_is_Some_2.
      rewrite Forall_forall in Hual. by apply Hual. }
  simpl in *. eexists. split; [exact Hrun|]. simpl.
  split; [done|]. split; [done|]. split; [done|]. split.
  - intros k l E. destruct (Hsub k) as [E'|E']; congruence.
  - intros key. unfold stored. destruct key as [k| |]; simpl; [|done|done].
    fold (next_now wall w).
    destruct (container w !! k) as [l|] eqn:E.
    + pose proof (Hal _ _ E) as Hl.
      apply lookup_lt_is_Some_2 in Hl as [e He]. rewrite He.
      destruct (Z.gtb_spec (next_now wall w) (expires e)) as [Hgt|Hle].
      * assert (c' !! k = None) as ->; [|done].
        apply Hiff. right. exists l, e.
        split; [by apply elem_of_range|]. split; [done|]. unfold next_now in Hgt. lia.
      * destruct (Hsub k) as [E'|E'].
        -- apply Hiff in E' as [E'|(l' & e' & Hin%elem_of_range & He' & Hexp)];
             [congruence|].
           assert (l' = l) as -> by congruence.
           assert (e' = e) as -> by congruence.
           unfold next_now in Hle. lia.
        -- by rewrite E', E, He.
    + assert (c' !! k = None) as ->; [|done]. apply Hiff. by left.
Qed.

End MapFacts.

(* ------------------------------------------------------------------ *)
(** * The claims about the map *)

Section MapClaims.
Context {K : Type} `{Countable K} {V : Type}.
Variable wall : nat -> Time.
Implicit Types (w : World (K:=K) (V:=V)) (k : K) (key : Key K) (e : Element V).

(** C1 (amended). An entry stored under [key] is visible to the reads
    exactly when the instant read by [Get] is at most its expiry
    ([now <= expiresAt]): then [Get] returns the entry and [true],
    [GetValue] its value, [Contains] [true] and [GetExpires] its expiry.
    Whenever [now > expiresAt] the entry behaves as absent ([Get] returns
    [(nil, false)], [GetValue] [nil], [Contains] [false], [GetExpires]
    [false]) although it is still stored and nothing swept it. *)
Theorem lazy_expiry_visibility w key e :
  stored w key = Some e ->
  (next_now wall w <= expires e ->
     exists l, lookup_key w key = Some l /\
       Map_Get wall key w = Ok ((Some l, true), ticked w) /\
       Map_GetValue wall key w = Ok (Value e, ticked w) /\
       Map_Contains wall key w = Ok (true, ticked w) /\
       Map_GetExpires wall key w = Ok ((expires e, true), ticked w)) /\
  (next_now wall w > expires e ->
     Map_Get wall key w = Ok ((None, false), ticked w) /\
     Map_GetValue wall key w = Ok (Nil, ticked w) /\
     Map_Contains wall key w = Ok (false, ticked w) /\
     Map_GetExpires wall key w = Ok ((zero_Time, false), ticked w) /\
     stored (ticked w) key = Some e).
Proof.
  intros (l & El & Ee)%stored_Some. split.
  - intros Hle. exists l. split; [done|].
    pose proof (Map_Get_live wall w key l e El Ee Hle) as HG.
    rewrite Map_GetValue_eq, Map_Contains_eq, Map_GetExpires_eq, HG.
    simpl. by rewrite Ee.
  - intros Hgt.
    pose proof (Map_Get_expired wall w key l e El Ee Hgt) as HG.
    rewrite Map_GetValue_eq, Map_Contains_eq, Map_GetExpires_eq, HG.
    repeat (split; [done|]). apply stored_Some. by exists l.
Qed.

(** C2 (amended). [Cleanup] reads the clock once, before the scan, and
    deletes exactly the entries stored under keys equal to themselves
    whose expiry is strictly before that reading; every such entry whose
    expiry is at or after it stays in the map under the same key, with
    the same value and expiry; and every entry stored under a key that is
    not equal to itself stays, whatever its expiry. *)
Theorem Cleanup_deletes_strictly_expired w :
  wf w ->
  exists w',
    Map_Cleanup wall w = Ok (tt, w') /\
    now_calls w' = S (now_calls w) /\
    heap w' = heap w /\
    (forall key e, stored w key = Some e -> expires e < next_now wall w ->
                   lookup_key w' key = None) /\
    (forall key e, stored w key = Some e -> next_now wall w <= expires e ->
                   lookup_key w' key = lookup_key w key /\ stored w' key = Some e) /\
    (forall key, lookup_key w key = None -> lookup_key w' key = None) /\
    unfindable w' = unfindable w.
Proof.
  intros Hwf. destruct (Map_Cleanup_spec wall w Hwf)
    as (w' & Hrun & Hn & Hheap & Hun & Hsub & Hst).
  exists w'. repeat (split; [done|]).
  assert (Hwf' : wf w').
  { apply (wf_shrink w); [by rewrite Hheap | done | done | done]. }
  split; [|split; [|split; [|done]]].
  - intros key e Hs Hlt. apply wf_stored_None; [done|]. rewrite Hst, Hs.
    destruct (Z.gtb_spec (next_now wall w) (expires e)); [done | lia].
  - intros key e Hs Hle.
    assert (Hs' : stored w' key = Some e).
    { rewrite Hst, Hs. destruct (Z.gtb_spec (next_now wall w) (expires e)); [lia | done]. }
    split; [|done].
    apply stored_Some in Hs' as (l & El & _). rewrite El. symmetry.
    apply lookup_key_Some in El as (k & -> & El). simpl. eauto.
  - intros key E. destruct (lookup_key w' key) as [l|] eqn:E'; [|done].
    apply lookup_key_Some in E' as (k & -> & E'). simpl in E.
    apply Hsub in E'. congruence.
Qed.

(** C4 (amended). When a live entry ([now <= expiresAt] at the instant
    [Extend] reads) is stored under [key], [Extend(key, d)] returns
    [true] and replaces the entry's expiry by [expiresAt + d] computed
    in [int64], that is exactly [expiresAt + d] whenever that sum fits in
    an [int64]; its value, the map and every other entry are unchanged.
    When no live entry is stored under [key] (none, or an expired one),
    it returns [false] and changes neither the map nor any entry. *)
Theorem Extend_adds_delta_in_int64 w key d :
  wf w ->
  (forall e, stored w key = Some e -> next_now wall w <= expires e ->
     exists w',
       Map_Extend wall key d w = Ok (true, w') /\
       stored w' key = Some (mkElement (Value e) (wrap64 (expires e + d))) /\
       (in_int64 (expires e + d) ->
        stored w' key = Some (mkElement (Value e) (expires e + d))) /\
       container w' = container w /\
       unfindable w' = unfindable w /\
       (forall key', key' <> key -> stored w' key' = stored w key') /\
       (forall l, l ∈ unfindable w -> heap w' !! l = heap w !! l)) /\
  ((hashable key = true /\ stored w key = None) \/
   (exists e, stored w key = Some e /\ next_now wall w > expires e) ->
     exists w',
       Map_Extend wall key d w = Ok (false, w') /\
       heap w' = heap w /\ container w' = container w /\
       unfindable w' = unfindable w).
Proof.
  intros Hwf. split.
  - intros e Hs Hle. pose proof Hs as (l & El & Ee)%stored_Some.
    rewrite Map_Extend_eq, (Map_Get_live wall w key l e El Ee Hle). simpl.
    rewrite Ee. eexists. split; [done|].
    apply lookup_key_Some in El as (k & -> & El).
    assert (Hk : stored
              (mkWorld (S (now_calls w))
                 (<[l:=mkElement (Value e) (wrap64 (expires e + d))]> (heap w))
                 (container w) (unfindable w)) (Plain k)
            = Some (mkElement (Value e) (wrap64 (expires e + d)))).
    { unfold stored. simpl. rewrite El.
      apply list_lookup_insert_eq. by apply lookup_lt_Some in Ee. }
    split; [done|]. split; [|split; [done|split; [done|split]]].
    + intros Hin. by rewrite Hk, wrap64_id.
    + intros key' Hne. unfold stored.
      destruct key' as [k'| |]; simpl; [|done|done].
      destruct (container w !! k') as [l'|] eqn:El'; [|done].
      apply list_lookup_insert_ne. intros ->.
      destruct Hwf as (_ & Hinj & _). apply Hne. f_equal. eauto.
    + intros l' Hin. simpl. apply list_lookup_insert_ne. intros ->.
      destruct Hwf as (_ & _ & _ & _ & Hdis). by apply (Hdis k l').
  - intros [[Hh Hs]|(e & Hs & Hgt)].
    + rewrite Map_Extend_eq, (Map_Get_absent wall w key); [eauto | done |].
      by apply wf_stored_None.
    + apply stored_Some in Hs as (l & El & Ee).
      rewrite Map_Extend_eq, (Map_Get_expired wall w key l e El Ee Hgt). eauto.
Qed.

(** C5. The check made when reading and the check made when sweeping are
    one predicate of the instant and the expiry: from any state, for any
    stored entry, [Get] and [Cleanup] both return, and [Get] reports the
    entry as absent if and only if [Cleanup], reading the same instant,
    deletes it. *)
Theorem lazy_and_active_expiry_agree w key e :
  wf w -> stored w key = Some e ->
  exists r w1 w2,
    Map_Get wall key w = Ok (r, w1) /\
    Map_Cleanup wall w = Ok (tt, w2) /\
    (r.2 = false <-> lookup_key w2 key = None) /\
    (r.2 = false <-> next_now wall w > expires e).
Proof.
  intros Hwf Hs.
  destruct (Map_Cleanup_spec wall w Hwf) as (w2 & Hrun & _ & Hheap & Hun & Hsub & Hst).
  assert (Hwf2 : wf w2).
  { apply (wf_shrink w); [by rewrite Hheap | done | done | done]. }
  pose proof Hs as (l & El & Ee)%stored_Some.
  specialize (Hst key). rewrite Hs in Hst.
  rewrite Map_Get_eq, (lookup_key_hashable _ _ _ El), El, Ee.
  destruct (Z.gtb_spec (next_now wall w) (expires e)) as [Hgt|Hle].
  - eexists _, _, w2. split; [done|]. split; [done|]. simpl. split.
    + split; [|done]. intros _. by apply wf_stored_None.
    + split; [lia | done].
  - eexists _, _, w2. split; [done|]. split; [done|]. simpl. split.
    + split; [done|]. intros E. unfold stored in Hst. by rewrite E in Hst.
    + split; [done | lia].
Qed.

(** C6 (amended). For a key [k] that is hashable and equal to itself,
    [Set(k, v, ttl)] always returns; it replaces whatever was stored
    under [k] by a new entry with value [v] whose expiry is [now + ttl]
    computed in [int64], and leaves the other keys alone. When
    [now + ttl] fits in an [int64] the new expiry equals [now + ttl], and
    a [Get(k)] that follows and reads an instant not after [now + ttl]
    (as one does that reads the very instant of the [Set], for
    [ttl > 0]) returns that entry and [true]. For a key that is hashable
    but not equal to itself [Set] returns and adds one more entry,
    replacing none, and no [Get] finds it; for an unhashable key [Set]
    panics. *)
Theorem Set_then_Get w k (v : iface V) ttl :
  (exists w',
    Map_Set wall (Plain k) v ttl w = Ok (tt, w') /\
    stored w' (Plain k) = Some (mkElement v (wrap64 (wall (now_calls w) + ttl))) /\
    (wf w -> forall key', key' <> Plain k -> stored w' key' = stored w key') /\
    unfindable w' = unfindable w /\
    (in_int64 (wall (now_calls w) + ttl) ->
     UnixNano (wall (S (now_calls w))) <= wall (now_calls w) + ttl ->
     stored w' (Plain k) = Some (mkElement v (wall (now_calls w) + ttl)) /\
     exists l,
       Map_Get wall (Plain k) w' = Ok ((Some l, true), ticked w') /\
       heap w' !! l = Some (mkElement v (wall (now_calls w) + ttl)) /\
       Map_GetValue wall (Plain k) w' = Ok (v, ticked w'))) /\
  (exists w',
    Map_Set wall Irreflexive v ttl w = Ok (tt, w') /\
    container w' = container w /\
    unfindable w' = unfindable w ++ [length (heap w)] /\
    heap w' !! length (heap w)
      = Some (mkElement v (wrap64 (wall (now_calls w) + ttl))) /\
    Map_Size w' = Ok (Z.of_nat (len w) + 1, w') /\
    Map_Get wall Irreflexive w' = Ok ((None, false), w') /\
    Map_GetValue wall Irreflexive w' = Ok (Nil, w')) /\
  Map_Set wall Unhashable v ttl w = Panic "runtime error: hash of unhashable type".
Proof.
  split; [|split; [|done]].
  - destruct (Map_Set wall (Plain k) v ttl w) as [[[] w']|] eqn:HS;
      [|by rewrite Map_Set_eq in HS].
    pose proof (stored_Set_same wall w k v ttl w' HS) as Hk.
    exists w'. split; [done|]. split; [done|]. split.
    { intros Hwf key' Hne. by apply (stored_Set_other wall w (Plain k) v ttl). }
    split. { rewrite Map_Set_eq in HS. by injection HS as <-. }
    intros Hin Hsoon. rewrite (wrap64_id _ Hin) in Hk. split; [done|].
    pose proof Hk as (l & El & Ee)%stored_Some.
    assert (Hnow : now_calls w' = S (now_calls w)).
    { rewrite Map_Set_eq in HS. by injection HS as <-. }
    assert (HG : Map_Get wall (Plain k) w' = Ok ((Some l, true), ticked w')).
    { apply (Map_Get_live wall w' (Plain k) l _ El Ee). unfold next_now. rewrite Hnow. done. }
    exists l. split; [done|]. split; [done|].
    rewrite Map_GetValue_eq, HG. simpl. by rewrite Ee.
  - eexists. split; [rewrite Map_Set_eq; reflexivity|]. simpl.
    split; [done|]. split; [done|]. split.
    { by rewrite lookup_app_r, Nat.sub_diag. }
    split.
    { unfold Map_Size, container_len, len. simpl. rewrite length_app. simpl.
      do 2 f_equal. lia. }
    set (w' := mkWorld _ _ _ _).
    assert (HG : Map_Get wall Irreflexive w' = Ok ((None, false), w')).
    { by apply Map_Get_absent. }
    by rewrite Map_GetValue_eq, HG.
Qed.

(** C7. After [Flush] the map is empty, whatever it held: [Size] returns
    0 and, for every hashable key, [Get] returns [(nil, false)],
    [GetValue] [nil] and [Contains] [false] (with an unhashable key
    these calls panic, as they do on every map). *)
Theorem Flush_empties w :
  exists w',
    Map_Flush w = Ok (tt, w') /\
    Map_Size w' = Ok (0, w') /\
    forall key,
      Map_Get wall key w' =
        (if hashable key then Ok ((None, false), w')
         else Panic "runtime error: hash of unhashable type") /\
      Map_GetValue wall key w' =
        (if hashable key then Ok (Nil, w')
         else Panic "runtime error: hash of unhashable type") /\
      Map_Contains wall key w' =
        (if hashable key then Ok (false, w')
         else Panic "runtime error: hash of unhashable type").
Proof.
  eexists. split; [reflexivity|]. split.
  - unfold Map_Size, container_len, len. simpl. by rewrite map_size_empty.
  - intros key. set (w' := mkWorld _ _ _ _).
    assert (HG : Map_Get wall key w' =
              (if hashable key then Ok ((None, false), w')
               else Panic "runtime error: hash of unhashable type")).
    { rewrite Map_Get_eq. destruct key as [k| |]; simpl; [|done|done].
      by rewrite lookup_empty. }
    rewrite Map_GetValue_eq, Map_Contains_eq, HG. by destruct (hashable key).
Qed.

(** C8. A read never changes the map, not even when the entry it finds
    has expired: with a hashable key, [Get], [GetValue], [Contains] and
    [GetExpires] return and leave the map and every stored [Element] as
    they were. *)
Theorem reads_leave_map_untouched w key :
  wf w ->
  hashable key = true ->
  (exists r w', Map_Get wall key w = Ok (r, w') /\
                heap w' = heap w /\ container w' = container w /\
                unfindable w' = unfindable w) /\
  (exists r w', Map_GetValue wall key w = Ok (r, w') /\
                heap w' = heap w /\ container w' = container w /\
                unfindable w' = unfindable w) /\
  (exists r w', Map_Contains wall key w = Ok (r, w') /\
                heap w' = heap w /\ container w' = container w /\
                unfindable w' = unfindable w) /\
  (exists r w', Map_GetExpires wall key w = Ok (r, w') /\
                heap w' = heap w /\ container w' = container w /\
                unfindable w' = unfindable w).
Proof.
  intros [Hal _] Hh.
  rewrite Map_GetValue_eq, Map_Contains_eq, Map_GetExpires_eq, Map_Get_eq, Hh.
  destruct (lookup_key w key) as [l|] eqn:El.
  - apply lookup_key_Some in El as (k & -> & El).
    pose proof (Hal _ _ El) as Hl. apply lookup_lt_is_Some_2 in Hl as [e Ee].
    rewrite Ee. destruct (next_now wall w >? expires e); simpl.
    + repeat split; by eexists _, _.
    + rewrite Ee. repeat split; by eexists _, _.
  - repeat split; by eexists _, _.
Qed.

(** C10. [GetValue] cannot tell a stored [nil] from absence: after
    [Set(k, nil, ttl)], read before the entry expires, [Get] finds the
    entry and [Contains] returns [true], yet [GetValue] returns [nil],
    which is also what it returns for a key that is not in the map. *)
Theorem GetValue_nil_is_ambiguous w k ttl :
  in_int64 (wall (now_calls w) + ttl) ->
  UnixNano (wall (S (now_calls w))) <= wall (now_calls w) + ttl ->
  exists w' l,
    Map_Set wall (Plain k) Nil ttl w = Ok (tt, w') /\
    Map_Get wall (Plain k) w' = Ok ((Some l, true), ticked w') /\
    Map_Contains wall (Plain k) w' = Ok (true, ticked w') /\
    Map_GetValue wall (Plain k) w' = Ok (Nil, ticked w') /\
    (forall w0 key0, hashable key0 = true -> lookup_key w0 key0 = None ->
                     Map_GetValue wall key0 w0 = Ok (Nil, w0)).
Proof.
  intros Hin Hsoon.
  destruct (Map_Set wall (Plain k) Nil ttl w) as [[[] w']|] eqn:HS;
    [|by rewrite Map_Set_eq in HS].
  pose proof (stored_Set_same wall w k Nil ttl w' HS) as Hk.
  rewrite (wrap64_id _ Hin) in Hk.
  pose proof Hk as (l & El & Ee)%stored_Some.
  assert (Hnow : now_calls w' = S (now_calls w)).
  { rewrite Map_Set_eq in HS. by injection HS as <-. }
  assert (HG : Map_Get wall (Plain k) w' = Ok ((Some l, true), ticked w')).
  { apply (Map_Get_live wall w' (Plain k) l _ El Ee). unfold next_now. rewrite Hnow. done. }
  exists w', l. split; [done|]. split; [done|].
  rewrite Map_Contains_eq, Map_GetValue_eq, HG. simpl. rewrite Ee. simpl.
  repeat (split; [done|]).
  intros w0 key0 Hh0 E0.
  by rewrite Map_GetValue_eq, (Map_Get_absent wall w0 key0 Hh0 E0).
Qed.

End MapClaims.

(* ------------------------------------------------------------------ *)
(** * Calls on a map made by [New] never panic *)

Section MapCallsFacts.
Context {K : Type} `{Countable K} {V : Type}.
Variable wall : nat -> Time.
Implicit Types (w : World (K:=K) (V:=V)) (k : K) (key : Key K) (e : Element V).

(** On a well-formed state [Get] with a hashable key returns, changes
    nothing but the clock, and the pointer it hands out is allocated. *)
Lemma Map_Get_ok w key :
  wf w -> hashable key = true ->
  exists p ok w',
    Map_Get wall key w = Ok ((p, ok), w') /\
    heap w' = heap w /\ container w' = container w /\
    unfindable w' = unfindable w /\
    (ok = true -> exists l e, p = Some l /\ heap w !! l = Some e).
Proof.
  intros [Hal _] Hh. rewrite Map_Get_eq, Hh.
  destruct (lookup_key w key) as [l|] eqn:El.
  - apply lookup_key_Some in El as (k & -> & El).
    pose proof (Hal _ _ El) as Hl. apply lookup_lt_is_Some_2 in Hl as [e Ee].
    rewrite Ee. destruct (next_now wall w >? expires e).
    + by eexists _, _, _.
    + eexists _, _, _. repeat (split; [done|]). eauto.
  - by eexists _, _, _.
Qed.

Lemma wf_insert_heap w l e :
  wf w ->
  wf (mkWorld (now_calls w) (<[l:=e]> (heap w)) (container w) (unfindable w)).
Proof. apply wf_shrink; [apply length_insert | done | done]. Qed.

Lemma wf_delete w k :
  wf w ->
  wf (mkWorld (now_calls w) (heap w) (delete k (container w)) (unfindable w)).
Proof.
  apply wf_shrink; [done| |done]. simpl. intros k' l.
  rewrite lookup_delete. by case_decide.
Qed.

Lemma wf_empty w : wf (mkWorld (now_calls w) (heap w) (∅ : gmap K nat) []).
Proof.
  repeat split; try (intros *; simpl; rewrite lookup_empty; discriminate).
  - constructor.
  - constructor.
Qed.

Lemma call_ok (c : MapCall K V) w :
  wf w -> call_hashable c = true ->
  exists w', call wall c w = Ok (tt, w') /\ wf w'.
Proof.
  intros Hwf Hh. destruct c as [key v d|key|key|key|key|key|key d| | |]; simpl in *.
  - destruct (Map_Set wall key v d w) as [[[] w']|] eqn:HS.
    + exists w'. split; [done|]. by eapply wf_Set.
    + rewrite Map_Set_eq in HS. by destruct key.
  - destruct (Map_Get_ok w key Hwf Hh) as (p & ok & w' & HG & Hh' & Hc & Hu & _).
    unfold bind. rewrite HG. eexists. split; [done|]. by apply (wf_same w).
  - destruct (Map_Get_ok w key Hwf Hh) as (p & ok & w' & HG & Hh' & Hc & Hu & Hp).
    unfold bind at 1. rewrite Map_GetValue_eq, HG.
    destruct ok.
    + destruct Hp as (l & e & -> & Ee); [done|]. rewrite Hh', Ee.
      eexists. split; [done|]. by apply (wf_same w).
    + eexists. split; [by destruct p|]. by apply (wf_same w).
  - destruct (Map_Get_ok w key Hwf Hh) as (p & ok & w' & HG & Hh' & Hc & Hu & Hp).
    unfold bind at 1. rewrite Map_GetExpires_eq, HG.
    destruct ok.
    + destruct Hp as (l & e & -> & Ee); [done|]. rewrite Hh', Ee.
      eexists. split; [done|]. by apply (wf_same w).
    + eexists. split; [by destruct p|]. by apply (wf_same w).
  - destruct (Map_Get_ok w key Hwf Hh) as (p & ok & w' & HG & Hh' & Hc & Hu & _).
    unfold bind at 1. rewrite Map_Contains_eq, HG.
    eexists. split; [done|]. by apply (wf_same w).
  - destruct key as [k| |]; [| |done].
    + eexists. split; [done|]. by apply wf_delete.
    + by exists w.
  - destruct (Map_Get_ok w key Hwf Hh) as (p & ok & w' & HG & Hh' & Hc & Hu & Hp).
    unfold bind at 1. rewrite Map_Extend_eq, HG.
    assert (Hwf' : wf w') by by apply (wf_same w).
    destruct ok.
    + destruct Hp as (l & e & -> & Ee); [done|]. rewrite Hh', Ee.
      eexists. split; [done|]. rewrite <- Hh'. by apply wf_insert_heap.
    + eexists. split; [by destruct p|]. done.
  - eexists. split; [done|]. apply wf_empty.
  - eexists. split; [done|]. done.
  - destruct (Map_Cleanup_spec wall w Hwf) as (w' & Hrun & _ & Hh' & Hu & Hsub & _).
    exists w'. split; [done|].
    apply (wf_shrink w); [by rewrite Hh' | done | done | done].
Qed.

(** A call with an unhashable key panics. *)
Lemma call_unhashable (c : MapCall K V) w :
  call_hashable c = false ->
  call wall c w = Panic "runtime error: hash of unhashable type".
Proof.
  destruct c as [key v d|key|key|key|key|key|key d| | |]; simpl; try done;
    by destruct key.
Qed.

Lemma call_wf (c : MapCall K V) w w' :
  wf w -> call wall c w = Ok (tt, w') -> wf w'.
Proof.
  intros Hwf Hc. destruct (call_hashable c) eqn:Hh.
  - destruct (call_ok c w Hwf Hh) as (w1 & Hc1 & Hwf1). congruence.
  - by rewrite (call_unhashable c w Hh) in Hc.
Qed.

Lemma calls_ok (cs : list (MapCall K V)) :
  forall w, wf w -> forallb call_hashable cs = true ->
  exists w', calls wall cs w = Ok (tt, w') /\ wf w'.
Proof.
  induction cs as [|c cs IH]; intros w Hwf Hall; simpl.
  - by exists w.
  - simpl in Hall. apply andb_prop in Hall as [Hh Hall].
    destruct (call_ok c w Hwf Hh) as (w1 & Hc & Hwf1).
    unfold bind. rewrite Hc. by apply IH.
Qed.

Lemma calls_wf (cs : list (MapCall K V)) :
  forall w w', wf w -> calls wall cs w = Ok (tt, w') -> wf w'.
Proof.
  induction cs as [|c cs IH]; intros w w' Hwf; simpl.
  - by intros [= <-].
  - unfold bind. destruct (call wall c w) as [[[] w1]|] eqn:Hc; [|done].
    intros Hcs. apply (IH w1); [|done]. by apply (call_wf c w).
Qed.

Lemma wf_after (cs : list (MapCall K V)) w w' :
  wf w -> after wall cs w = Some w' -> wf w'.
Proof.
  intros Hwf. unfold after.
  destruct (calls wall cs w) as [[[] w1]|] eqn:Hc; [|done].
  intros [= <-]. by apply (calls_wf cs w).
Qed.

End MapCallsFacts.

(* ------------------------------------------------------------------ *)
(** * The cleaner *)

Section CleanerFacts.
Context {T : Type} `{Ticker T} {S : Type}.
Implicit Types (c : Cleaner (T:=T) (S:=S)) (sy : Sys (T:=T) (S:=S)).


Lemma Cleaner_Stop_closed c :
  stopChan c = ChanClosed -> Cleaner_Stop c = Panic "close of closed channel".
Proof. unfold Cleaner_Stop. by intros ->. Qed.

(** The [select] never hands a [Break] to the [for]. *)
Lemma select_stmt_Normal pick sy sg sy' :
  select_stmt pick sy = Some (Ok (sg, sy')) -> sg = Normal.
Proof.
  unfold select_stmt. destruct (case_ready pick sy); [|done].
  destruct pick; simpl.
  - unfold case_tick. destruct (run_callbacks _ _); [|done]. by intros [= <- _].
  - by intros [= <- _].
Qed.

Lemma for_iteration_stays pick sy :
  leaves_loop (for_iteration pick sy) = false.
Proof.
  unfold for_iteration.
  destruct (select_stmt pick sy) as [[[sg sy']|m]|] eqn:E; [|done|done].
  by rewrite (select_stmt_Normal _ _ _ _ E).
Qed.

Lemma step_goroutines ev sy sy' :
  step ev sy = Ok sy' -> (goroutines sy <= goroutines sy')%nat.
Proof.
  destruct ev as [fns| | | |pick]; simpl.
  - intros [= <-]. simpl. lia.
  - intros [= <-]. simpl. lia.
  - destruct (Cleaner_Stop (cleaner sy)); [|done]. intros [= <-]. simpl. lia.
  - intros [= <-]. simpl. lia.
  - destruct (goroutines sy) as [|n] eqn:Eg; [intros [= <-]; lia|].
    pose proof (for_iteration_stays pick sy) as Hst.
    unfold for_iteration in *.
    destruct (select_stmt pick sy) as [[[sg sy1]|m]|] eqn:E;
      [|done|intros [= <-]; lia].
    rewrite (select_stmt_Normal _ _ _ _ E). intros [= <-].
    unfold select_stmt in E. destruct (case_ready pick sy); [|done].
    destruct pick; simpl in E.
    + unfold case_tick in E. destruct (run_callbacks _ _); [|done].
      injection E as _ <-. simpl. lia.
    + injection E as _ <-. lia.
Qed.

Lemma run_goroutines evs :
  forall sy sy', run evs sy = Ok sy' -> (goroutines sy <= goroutines sy')%nat.
Proof.
  induction evs as [|ev evs IH]; intros sy sy'; simpl.
  - intros [= <-]. lia.
  - destruct (step ev sy) as [sy1|] eqn:E; [|done].
    intros Hr. apply step_goroutines in E. apply IH in Hr. lia.
Qed.




End CleanerFacts.

(* ------------------------------------------------------------------ *)
(** * The claims about the cleaner *)

(** C3. [Stop] does not end the goroutine of [Start]: the [break] of the
    stop case leaves the [select], not the [for], so no iteration of the
    loop ever leaves it and the number of running goroutines never
    decreases in any run. With a ticker driven by hand, a tick sent after
    [Stop] is received and the callback runs (the counter goes from 0 to
    1); with the default ticker the goroutine is still there after any
    number of turns through the stop case. *)
Theorem Stop_leaves_the_goroutine_running :
  (forall (T S : Type) (HT : Ticker T) pick (sy : Sys (T:=T) (S:=S)),
     leaves_loop (for_iteration pick sy) = false) /\
  (forall (T S : Type) (HT : Ticker T) evs (sy : Sys (T:=T) (S:=S)),
     match run evs sy with
     | Ok sy' => (goroutines sy <=? goroutines sy')%nat = true
     | Panic _ => True
     end) /\
  run [EvAddCallback [count_cb]; EvStart; EvStop]
      (boot (mkManualTicker 0) 0%nat)
  = Ok (mkSys (mkCleaner (mkManualTicker 0) ChanClosed [count_cb]) 0%nat 1%nat) /\
  run [EvAddCallback [count_cb]; EvStart; EvStop; EvFire; EvIterate CaseTick]
      (boot (mkManualTicker 0) 0%nat)
  = Ok (mkSys (mkCleaner (mkManualTicker 0) ChanClosed [count_cb]) 1%nat 1%nat) /\
  exists c : Cleaner (T:=DefaultTicker) (S:=nat),
    NewCleaner 10 = Ok c /\
    run [EvStart; EvStop; EvIterate CaseStop; EvIterate CaseStop]
        (mkSys c 0%nat 0%nat)
    = Ok (mkSys (mkCleaner (mkDefaultTicker false false) ChanClosed []) 0%nat 1%nat).
Proof.
  split; [|split; [|split; [|split]]].
  - intros. apply for_iteration_stays.
  - intros. destruct (run evs sy) as [sy'|] eqn:E; [|done].
    apply Nat.leb_le. by apply (run_goroutines evs).
  - by vm_compute.
  - by vm_compute.
  - eexists. split; by vm_compute.
Qed.

Section MisuseClaims.
Context {K : Type} `{Countable K} {V : Type}.
Context {T : Type} `{Ticker T} {S : Type}.


End MisuseClaims.

(* ------------------------------------------------------------------ *)
(** * Concrete runs *)

Lemma wf_reach {K : Type} `{Countable K} {V : Type} (wall : nat -> Time)
    (cs : list (MapCall K V)) :
  wf (reach wall cs).
Proof.
  unfold reach. destruct (after wall cs New) as [w|] eqn:E; [|apply wf_New].
  eapply wf_after; [apply wf_New | exact E].
Qed.

(** C1, as stated, fails when the clock shows exactly the expiry: ["a"]
    expires at 1010, [Get] reads 1010 (so [now >= expiresAt]), and yet
    the entry is returned as present by [Get], [GetValue] and
    [Contains]. *)
Lemma entry_visible_at_its_expiry_instant :
  stored at_expiry (Plain "a") = Some (mkElement (Box 1) 1010) /\
  next_now demo_clock at_expiry >= 1010 /\
  Map_Get demo_clock (Plain "a") at_expiry = Ok ((Some 0%nat, true), ticked at_expiry) /\
  Map_GetValue demo_clock (Plain "a") at_expiry = Ok (Box 1, ticked at_expiry) /\
  Map_Contains demo_clock (Plain "a") at_expiry = Ok (true, ticked at_expiry).
Proof. vm_compute. repeat split. discriminate. Qed.

(** C2, as stated, fails in two ways. An entry whose expiry is the
    instant [Cleanup] reads is kept: ["a"] expires at 1010, which is at
    (not after) the reading 1010, and it is still in the map after the
    sweep. And an entry stored under a key that is not equal to itself
    is kept although it has expired: set at 1000 for 5, it is still in
    the map, and counted by [Size], after the sweep that reads 1010. *)
Lemma Cleanup_keeps_entries_the_claim_deletes :
  (stored at_expiry (Plain "a") = Some (mkElement (Box 1) 1010) /\
   1010 <= next_now demo_clock at_expiry /\
   exists w',
     Map_Cleanup demo_clock at_expiry = Ok (tt, w') /\
     stored w' (Plain "a") = Some (mkElement (Box 1) 1010)) /\
  (unfindable nan_entry = [0%nat] /\
   heap nan_entry !! 0%nat = Some (mkElement (Box 1) 1005) /\
   1005 < next_now demo_clock nan_entry /\
   exists w',
     Map_Cleanup demo_clock nan_entry = Ok (tt, w') /\
     unfindable w' = [0%nat] /\
     Map_Size w' = Ok (1, w')).
Proof.
  split.
  - split; [by vm_compute|]. split; [by vm_compute|].
    eexists. split; by vm_compute.
  - split; [by vm_compute|]. split; [by vm_compute|]. split; [by vm_compute|].
    eexists. split; [by vm_compute|]. split; by vm_compute.
Qed.

(** C4, as stated, fails when the sum leaves [int64]: ["a"] is live and
    expires in an hour; [Extend("a", d)] with the largest duration
    returns [true] and the expiry becomes a negative number, which is
    not the old expiry plus [d]. *)
Lemma Extend_overflow_moves_expiry_back :
  stored set_for_an_hour (Plain "a") = Some (mkElement (Box 1) 1790003600000000000) /\
  next_now clock_2026 set_for_an_hour <= 1790003600000000000 /\
  exists w',
    Map_Extend clock_2026 (Plain "a") int64_max set_for_an_hour = Ok (true, w') /\
    stored w' (Plain "a") = Some (mkElement (Box 1) (-7433368436854775809)) /\
    -7433368436854775809 <> 1790003600000000000 + int64_max.
Proof.
  split; [by vm_compute|]. split; [by vm_compute|].
  eexists. split; [by vm_compute|]. split; [by vm_compute|].
  by vm_compute.
Qed.

(** C6, as stated, fails in two ways. For the largest [ttl] the expiry
    computed by [Set] wraps around to a negative number, which is not
    [now + ttl], and a [Get] at the very same instant does not find the
    entry. For a key that is not equal to itself, [Get] right after
    [Set] finds nothing, and a second [Set] adds a second entry instead
    of replacing the first. *)
Lemma Set_then_Get_can_miss :
  (0 < int64_max /\
   Map_Set still_2026 (Plain "a") (Box 1) int64_max New = Ok (tt, born_expired) /\
   stored born_expired (Plain "a") = Some (mkElement (Box 1) (-7433372036854775809)) /\
   -7433372036854775809 <> still_2026 0 + int64_max /\
   Map_Get still_2026 (Plain "a") born_expired
     = Ok ((None, false), ticked born_expired)) /\
  (exists w1 w2 : World (K:=string) (V:=Z),
     0 < time_Hour /\
     Map_Set still_clock Irreflexive (Box 1) time_Hour New = Ok (tt, w1) /\
     Map_Get still_clock Irreflexive w1 = Ok ((None, false), w1) /\
     Map_GetValue still_clock Irreflexive w1 = Ok (Nil, w1) /\
     Map_Set still_clock Irreflexive (Box 2) time_Hour w1 = Ok (tt, w2) /\
     Map_Size w2 = Ok (2, w2)).
Proof.
  split.
  - vm_compute. repeat split; discriminate.
  - eexists _, _. split; [by vm_compute|]. split; [by vm_compute|].
    split; [by vm_compute|]. split; [by vm_compute|]. split; by vm_compute.
Qed.


(** The sweeper at work: the map is registered with [AddCleanable], the
    ticker fires once and the goroutine serves that tick; the expired
    ["b"] is gone from the map and ["a"] is kept. *)
Example sweeper_removes_expired_entry :
  match run [EvStart; EvFire; EvIterate CaseTick]
            (mkSys (Cleaner_AddCleanable (Map_Cleanable demo_clock)
                      (NewCleanerCustom (mkManualTicker 0)))
                   two_entries 0%nat) with
  | Ok sy =>
      container (shared sy) !! "b" = None /\
      stored (shared sy) (Plain "a") = Some (mkElement (Box 1) 1025)
  | Panic _ => False
  end.
Proof. by vm_compute. Qed.

(** *** The theorems at concrete inputs *)

(** In [two_entries] the clock shows 1020 next: ["a"] (expiry 1025) is
    seen, ["b"] (expiry 1015) is not. *)
Lemma lazy_expiry_visibility_witness :
  Map_Contains demo_clock (Plain "a") two_entries = Ok (true, ticked two_entries) /\
  Map_GetValue demo_clock (Plain "b") two_entries = Ok (Nil, ticked two_entries).
Proof.
  split.
  - destruct (lazy_expiry_visibility demo_clock two_entries (Plain "a")
                (mkElement (Box 1) 1025)) as [Hlive _]; [by vm_compute|].
    destruct Hlive as (l & _ & _ & _ & HC & _); [by vm_compute|].
    exact HC.
  - destruct (lazy_expiry_visibility demo_clock two_entries (Plain "b")
                (mkElement (Box 2) 1015)) as [_ Hexp]; [by vm_compute|].
    destruct Hexp as (_ & HV & _); [by vm_compute|].
    exact HV.
Defined.

Lemma Cleanup_deletes_strictly_expired_witness :
  exists w',
    Map_Cleanup demo_clock two_entries = Ok (tt, w') /\
    lookup_key w' (Plain "b") = None /\
    stored w' (Plain "a") = Some (mkElement (Box 1) 1025).
Proof.
  destruct (Cleanup_deletes_strictly_expired demo_clock two_entries
              (wf_reach _ _)) as (w' & Hrun & _ & _ & Hdel & Hkeep & _).
  exists w'. split; [exact Hrun|]. split.
  - apply (Hdel (Plain "b") (mkElement (Box 2) 1015)); by vm_compute.
  - apply (Hkeep (Plain "a") (mkElement (Box 1) 1025)); by vm_compute.
Defined.

Lemma Extend_adds_delta_in_int64_witness :
  (exists w',
     Map_Extend demo_clock (Plain "a") 100 two_entries = Ok (true, w') /\
     stored w' (Plain "a") = Some (mkElement (Box 1) 1125)) /\
  (exists w',
     Map_Extend demo_clock (Plain "b") 100 two_entries = Ok (false, w') /\
     container w' = container two_entries).
Proof.
  destruct (Extend_adds_delta_in_int64 demo_clock two_entries (Plain "a") 100
              (wf_reach _ _)) as [Hlive _].
  destruct (Extend_adds_delta_in_int64 demo_clock two_entries (Plain "b") 100
              (wf_reach _ _)) as [_ Hdead].
  split.
  - destruct (Hlive (mkElement (Box 1) 1025)) as (w' & HE & _ & Hexact & _);
      [by vm_compute | by vm_compute |].
    exists w'. split; [exact HE|]. apply Hexact. by vm_compute.
  - destruct Hdead as (w' & HE & _ & Hc & _).
    { right. exists (mkElement (Box 2) 1015). by vm_compute. }
    exists w'. split; [exact HE | exact Hc].
Defined.

Lemma lazy_and_active_expiry_agree_witness :
  exists r w1 w2,
    Map_Get demo_clock (Plain "b") two_entries = Ok (r, w1) /\
    Map_Cleanup demo_clock two_entries = Ok (tt, w2) /\
    (r.2 = false <-> lookup_key w2 (Plain "b") = None).
Proof.
  destruct (lazy_and_active_expiry_agree demo_clock two_entries (Plain "b")
              (mkElement (Box 2) 1015) (wf_reach _ _))
    as (r & w1 & w2 & HG & HC & Hiff & _); [by vm_compute|].
  exists r, w1, w2. split; [exact HG|]. split; [exact HC | exact Hiff].
Defined.

(** [Set] with a [ttl] of one nanosecond, then [Get] at the same
    instant. *)
Lemma Set_then_Get_witness :
  exists (w' : World (K:=string) (V:=Z)) l,
    Map_Set still_clock (Plain "a") (Box 1) 1 New = Ok (tt, w') /\
    stored w' (Plain "a") = Some (mkElement (Box 1) 1001) /\
    Map_Get still_clock (Plain "a") w' = Ok ((Some l, true), ticked w') /\
    Map_GetValue still_clock (Plain "a") w' = Ok (Box 1, ticked w').
Proof.
  destruct (Set_then_Get still_clock New "a" (Box 1) 1)
    as [(w' & HS & _ & _ & _ & Hfit) _].
  destruct Hfit as (Hk & l & HG & _ & HV); [by vm_compute | by vm_compute |].
  exists w', l. split; [exact HS|]. split; [exact Hk|].
  split; [exact HG | exact HV].
Defined.

(** A read of the expired ["b"] leaves [two_entries] as it was. *)
Lemma reads_leave_map_untouched_witness :
  exists r w',
    Map_Get demo_clock (Plain "b") two_entries = Ok (r, w') /\
    heap w' = heap two_entries /\ container w' = container two_entries /\
    unfindable w' = unfindable two_entries.
Proof.
  exact (proj1 (reads_leave_map_untouched demo_clock two_entries (Plain "b")
                  (wf_reach _ _) eq_refl)).
Defined.


Lemma GetValue_nil_is_ambiguous_witness :
  exists (w' : World (K:=string) (V:=Z)) l,
    Map_Set still_clock (Plain "a") Nil 1 New = Ok (tt, w') /\
    Map_Get still_clock (Plain "a") w' = Ok ((Some l, true), ticked w') /\
    Map_GetValue still_clock (Plain "a") w' = Ok (Nil, ticked w').
Proof.
  destruct (GetValue_nil_is_ambiguous (V:=Z) still_clock New "a" 1)
    as (w' & l & HS & HG & _ & HV & _); [by vm_compute | by vm_compute |].
  exists w', l. split; [exact HS|]. split; [exact HG | exact HV].
Defined.

(* ------------------------------------------------------------------ *)
(** * Further properties of the map *)

Lemma wrap64_add_l (a b : Z) : wrap64 (wrap64 a + b) = wrap64 (a + b).
Proof.
  unfold wrap64.
  replace ((a + 2 ^ 63) mod 2 ^ 64 - 2 ^ 63 + b + 2 ^ 63)
    with ((a + 2 ^ 63) mod 2 ^ 64 + b) by lia.
  rewrite Zplus_mod_idemp_l. f_equal. f_equal. lia.
Qed.

Section MapExtras.
Context {K : Type} `{Countable K} {V : Type}.
Variable wall : nat -> Time.
Implicit Types (w : World (K:=K) (V:=V)) (k : K) (key : Key K) (e : Element V).

(** X1. [Remove(key)] with a hashable key returns on every map;
    afterwards [key] is absent to [Get], [GetValue] and [Contains],
    whether its entry was live, expired or missing; the other keys keep
    their entries, and [Size] drops by one exactly when a lookup of
    [key] found an entry. *)
Theorem Remove_then_absent w key :
  hashable key = true ->
  exists w',
    Map_Remove key w = Ok (tt, w') /\
    Map_Get wall key w' = Ok ((None, false), w') /\
    Map_GetValue wall key w' = Ok (Nil, w') /\
    Map_Contains wall key w' = Ok (false, w') /\
    (forall key', key' <> key -> stored w' key' = stored w key') /\
    unfindable w' = unfindable w /\
    Map_Size w' =
      Ok (match lookup_key w key with
          | Some _ => Z.of_nat (len w) - 1
          | None => Z.of_nat (len w)
          end, w').
Proof.
  intros Hh. destruct key as [k| |]; [| |done].
  - eexists. split; [reflexivity|].
    set (w' := mkWorld (now_calls w) (heap w) (delete k (container w)) (unfindable w)).
    assert (HG : Map_Get wall (Plain k) w' = Ok ((None, false), w')).
    { apply Map_Get_absent; [done|]. apply lookup_delete_eq. }
    rewrite Map_GetValue_eq, Map_Contains_eq, HG.
    repeat (split; [done|]). split; [|split; [done|]].
    + intros key' Hne. unfold stored.
      destruct key' as [k'| |]; simpl; [|done|done].
      rewrite lookup_delete_ne; [done | congruence].
    + unfold Map_Size, container_len, len. simpl. rewrite map_size_delete.
      destruct (container w !! k) as [l|] eqn:E; simpl; [|done].
      assert (size (container w) <> 0%nat).
      { intros Hz. apply map_size_empty_inv in Hz. rewrite Hz in E.
        by rewrite lookup_empty in E. }
      do 2 f_equal. lia.
  - exists w. split; [done|].
    assert (HG : Map_Get wall Irreflexive w = Ok ((None, false), w)).
    { by apply Map_Get_absent. }
    by rewrite Map_GetValue_eq, Map_Contains_eq, HG.
Qed.

(** X2. [Set(key, ...)] with a hashable key makes [Size] grow by one
    when a lookup of [key] found nothing and leaves it as it was when it
    found an entry, be that entry live or expired. *)
Theorem Set_grows_Size_for_new_keys_only w key (v : iface V) ttl :
  hashable key = true ->
  exists w',
    Map_Set wall key v ttl w = Ok (tt, w') /\
    Map_Size w' =
      Ok (match lookup_key w key with
          | Some _ => Z.of_nat (len w)
          | None => Z.of_nat (len w) + 1
          end, w').
Proof.
  intros Hh. destruct key as [k| |]; [| |done].
  - eexists. split; [rewrite Map_Set_eq; reflexivity|].
    unfold Map_Size, container_len, len. simpl. rewrite map_size_insert.
    destruct (container w !! k); simpl; do 2 f_equal; lia.
  - eexists. split; [rewrite Map_Set_eq; reflexivity|].
    unfold Map_Size, container_len, len. simpl. rewrite length_app. simpl.
    do 2 f_equal. lia.
Qed.

(** X3. After [Set] on pairwise distinct keys (hashable and equal to
    themselves), none of them stored before, [Size] has grown by the
    number of keys, whatever the values and the durations are (also for
    durations already elapsed). *)
Theorem Size_counts_distinct_keys (items : list (K * iface V * Z)) :
  forall w,
  NoDup (items.*1.*1) ->
  (forall i, i ∈ items -> container w !! i.1.1 = None) ->
  exists w',
    calls wall (set_each items) w = Ok (tt, w') /\
    Map_Size w' = Ok (Z.of_nat (len w) + Z.of_nat (length items), w').
Proof.
  induction items as [|[[k v] d] items IH]; intros w Hnd Hnew.
  - exists w. split; [done|]. unfold Map_Size, container_len.
    simpl. do 2 f_equal. lia.
  - simpl in Hnd. apply NoDup_cons in Hnd as [Hk Hnd].
    change (calls wall (set_each ((k, v, d) :: items)) w)
      with (bind (Map_Set wall (Plain k) v d)
              (fun _ => calls wall (set_each items)) w).
    unfold bind at 1. rewrite Map_Set_eq.
    destruct (IH (mkWorld (S (now_calls w))
                    (heap w ++ [mkElement v (wrap64 (wall (now_calls w) + d))])
                    (<[k:=length (heap w)]> (container w)) (unfindable w)))
      as (w' & Hc & Hs).
    { done. }
    { intros i Hi. simpl. rewrite lookup_insert_ne.
      - apply Hnew. by right.
      - intros ->. apply Hk. apply list_elem_of_fmap. exists i.1.
        split; [done|]. apply list_elem_of_fmap. by exists i. }
    exists w'. split; [exact Hc|]. rewrite Hs. unfold len. simpl.
    rewrite map_size_insert_None by (apply (Hnew (k, v, d)); by left).
    do 2 f_equal. lia.
Qed.

(** X4. After [Cleanup] no entry that a lookup still finds had its
    expiry before the instant the sweep read, while the entries under
    keys not equal to themselves are all still there; [Size] has not
    grown, and it has shrunk when some entry that a lookup found had
    expired before that instant. *)
Theorem Cleanup_shrinks_to_the_unexpired w :
  wf w ->
  exists w',
    Map_Cleanup wall w = Ok (tt, w') /\
    (forall key e, stored w' key = Some e -> next_now wall w <= expires e) /\
    unfindable w' = unfindable w /\
    (len w' <= len w)%nat /\
    ((exists key e, stored w key = Some e /\ expires e < next_now wall w) ->
     (len w' < len w)%nat).
Proof.
  intros Hwf.
  destruct (Map_Cleanup_spec wall w Hwf)
    as (w' & Hrun & _ & Hheap & Hun & Hsub & Hst).
  assert (Hwf' : wf w').
  { apply (wf_shrink w); [by rewrite Hheap | done | done | done]. }
  assert (Hincl : container w' ⊆ container w) by by apply map_subseteq_spec.
  pose proof (map_subseteq_size _ _ Hincl) as Hsize.
  exists w'. split; [done|]. split; [|split; [done|split]].
  - intros key e Hs. rewrite Hst in Hs.
    destruct (stored w key) as [e0|]; [|done].
    destruct (Z.gtb_spec (next_now wall w) (expires e0)); [done|].
    injection Hs as <-. done.
  - unfold len. rewrite Hun. lia.
  - intros (key & e & Hs & Hlt). unfold len. rewrite Hun.
    destruct (decide (size (container w') < size (container w))%nat) as [|Hge];
      [lia|]. exfalso.
    assert (Heq : container w' = container w).
    { apply map_subseteq_size_eq; [done | lia]. }
    specialize (Hst key). rewrite Hs in Hst.
    destruct (Z.gtb_spec (next_now wall w) (expires e)); [|lia].
    apply (wf_stored_None _ _ Hwf') in Hst.
    apply stored_Some in Hs as (l & El & _).
    apply lookup_key_Some in El as (k & -> & El). simpl in Hst.
    rewrite Heq in Hst. congruence.
Qed.

(** X5. A second [Cleanup] that reads an instant not after the one the
    first sweep read removes nothing. *)
Theorem Cleanup_again_removes_nothing w :
  wf w ->
  UnixNano (wall (S (now_calls w))) <= UnixNano (wall (now_calls w)) ->
  exists w1 w2,
    Map_Cleanup wall w = Ok (tt, w1) /\
    Map_Cleanup wall w1 = Ok (tt, w2) /\
    container w2 = container w1 /\ heap w2 = heap w1 /\
    unfindable w2 = unfindable w1.
Proof.
  intros Hwf Hclock.
  destruct (Map_Cleanup_spec wall w Hwf)
    as (w1 & Hrun1 & Hn1 & Hheap1 & Hun1 & Hsub1 & Hst1).
  assert (Hwf1 : wf w1).
  { apply (wf_shrink w); [by rewrite Hheap1 | done | done | done]. }
  destruct (Map_Cleanup_spec wall w1 Hwf1)
    as (w2 & Hrun2 & _ & Hheap2 & Hun2 & Hsub2 & Hst2).
  exists w1, w2. repeat (split; [done|]). split; [|done].
  apply map_eq. intros k.
  destruct (container w1 !! k) as [l|] eqn:E1.
  - destruct (stored w1 (Plain k)) as [e|] eqn:Hs1.
    2:{ apply (wf_stored_None _ _ Hwf1) in Hs1. simpl in Hs1. congruence. }
    assert (Hle : next_now wall w <= expires e).
    { rewrite Hst1 in Hs1. destruct (stored w (Plain k)) as [e0|]; [|done].
      destruct (Z.gtb_spec (next_now wall w) (expires e0)); [done|].
      injection Hs1 as <-. done. }
    specialize (Hst2 (Plain k)). rewrite Hs1 in Hst2.
    assert (Hnow : next_now wall w1 <= next_now wall w).
    { unfold next_now. by rewrite Hn1. }
    destruct (Z.gtb_spec (next_now wall w1) (expires e)); [lia|].
    apply stored_Some in Hst2 as (l2 & E2 & _). simpl in E2.
    rewrite E2. f_equal. apply Hsub2 in E2. congruence.
  - destruct (container w2 !! k) as [l|] eqn:E2; [|done].
    apply Hsub2 in E2. congruence.
Qed.

(** What [Extend] does to a live entry, as a state. *)
Lemma Map_Extend_live w key l e d :
  lookup_key w key = Some l -> heap w !! l = Some e ->
  next_now wall w <= expires e ->
  Map_Extend wall key d w =
  Ok (true, mkWorld (S (now_calls w))
                    (<[l := mkElement (Value e) (wrap64 (expires e + d))]> (heap w))
                    (container w) (unfindable w)).
Proof.
  intros El Ee Hle.
  rewrite Map_Extend_eq, (Map_Get_live wall w key l e El Ee Hle). simpl.
  by rewrite Ee.
Qed.

(** X6. For a key [k] that is hashable and equal to itself:
    [Set(k, v, ttl)], then [Extend(k, d)], then [GetExpires(k)]; when the
    sums fit in an [int64] and the two reads happen before the respective
    expiry, [Extend] returns [true] and [GetExpires] returns the instant
    [now + ttl + d], [now] being the instant [Set] read. *)
Theorem Set_Extend_GetExpires w k (v : iface V) ttl d :
  in_int64 (wall (now_calls w) + ttl) ->
  in_int64 (wall (now_calls w) + ttl + d) ->
  UnixNano (wall (S (now_calls w))) <= wall (now_calls w) + ttl ->
  UnixNano (wall (S (S (now_calls w)))) <= wall (now_calls w) + ttl + d ->
  exists w1 w2 w3,
    Map_Set wall (Plain k) v ttl w = Ok (tt, w1) /\
    Map_Extend wall (Plain k) d w1 = Ok (true, w2) /\
    Map_GetExpires wall (Plain k) w2
      = Ok ((wall (now_calls w) + ttl + d, true), w3) /\
    Map_GetValue wall (Plain k) w2 = Ok (v, w3).
Proof.
  intros Hin1 Hin2 Hr1 Hr2.
  eexists. eexists. eexists. split; [rewrite Map_Set_eq; reflexivity|].
  set (l := length (heap w)).
  set (e1 := mkElement v (wrap64 (wall (now_calls w) + ttl))).
  assert (Ee1 : (heap w ++ [e1]) !! l = Some e1).
  { unfold l. by rewrite lookup_app_r, Nat.sub_diag. }
  split.
  - apply (Map_Extend_live _ (Plain k) l e1).
    + simpl. apply lookup_insert_eq.
    + exact Ee1.
    + unfold next_now. simpl. by rewrite (wrap64_id _ Hin1).
  - simpl. rewrite (wrap64_id _ Hin1), (wrap64_id _ Hin2).
    set (e2 := mkElement v (wall (now_calls w) + ttl + d)).
    set (w2 := mkWorld _ _ _ _).
    assert (El2 : lookup_key w2 (Plain k) = Some l) by apply lookup_insert_eq.
    assert (Ee2 : heap w2 !! l = Some e2).
    { simpl. apply list_lookup_insert_eq. rewrite length_app. simpl. lia. }
    assert (HG : Map_Get wall (Plain k) w2 = Ok ((Some l, true), ticked w2)).
    { apply (Map_Get_live wall w2 (Plain k) l e2 El2 Ee2). unfold next_now. done. }
    rewrite Map_GetExpires_eq, Map_GetValue_eq, HG.
    change (heap (ticked w2)) with (heap w2). by rewrite Ee2.
Qed.

(** X7. Two [Extend]s on an entry that is live at both reads amount to
    one by the sum of the durations, in [int64] arithmetic. *)
Theorem Extend_twice_adds_the_sum w key e d1 d2 :
  stored w key = Some e ->
  next_now wall w <= expires e ->
  UnixNano (wall (S (now_calls w))) <= wrap64 (expires e + d1) ->
  exists w1 w2,
    Map_Extend wall key d1 w = Ok (true, w1) /\
    Map_Extend wall key d2 w1 = Ok (true, w2) /\
    stored w2 key = Some (mkElement (Value e) (wrap64 (expires e + (d1 + d2)))).
Proof.
  intros (l & El & Ee)%stored_Some Hle1 Hle2.
  pose proof (lookup_lt_Some _ _ _ Ee) as Hl.
  eexists. eexists. split; [by apply (Map_Extend_live w key l e)|]. split.
  - apply (Map_Extend_live _ key l (mkElement (Value e) (wrap64 (expires e + d1)))).
    + by destruct key.
    + simpl. by apply list_lookup_insert_eq.
    + done.
  - apply stored_Some. exists l. split; [by destruct key|]. simpl.
    rewrite list_insert_insert_eq.
    rewrite list_lookup_insert_eq by done.
    by rewrite wrap64_add_l, Z.add_assoc.
Qed.


(** X9. The pointer handed out by [Get] is the cell the map holds: after
    a later [Extend(key, d)] the same pointer reads the new expiry. *)
Theorem Get_pointer_sees_Extend w key e d :
  stored w key = Some e ->
  next_now wall w <= expires e ->
  UnixNano (wall (S (now_calls w))) <= expires e ->
  exists l w1,
    Map_Get wall key w = Ok ((Some l, true), ticked w) /\
    Map_Extend wall key d (ticked w) = Ok (true, w1) /\
    Element_Expires (Some l) w1 = Ok (wrap64 (expires e + d), w1) /\
    load (Some l) w1 = Ok (mkElement (Value e) (wrap64 (expires e + d)), w1).
Proof.
  intros (l & El & Ee)%stored_Some Hle1 Hle2.
  pose proof (lookup_lt_Some _ _ _ Ee) as Hl.
  exists l. eexists. split; [by apply (Map_Get_live wall w key l e)|].
  split; [apply (Map_Extend_live (ticked w) key l e); by destruct key|].
  unfold Element_Expires, atomic_LoadInt64_expires, bind, load, ret. simpl.
  by rewrite list_lookup_insert_eq.
Qed.

(** X10. [Set] on a stored key allocates a new [Element] and does not
    touch the old one: a pointer obtained from [Get] before the [Set]
    still reads the old value and expiry, and the map now holds another
    pointer. *)
Theorem Set_leaves_the_old_Element w key e (v : iface V) ttl :
  stored w key = Some e ->
  next_now wall w <= expires e ->
  exists l l' w1,
    Map_Get wall key w = Ok ((Some l, true), ticked w) /\
    Map_Set wall key v ttl (ticked w) = Ok (tt, w1) /\
    load (Some l) w1 = Ok (e, w1) /\
    lookup_key w1 key = Some l' /\ l' <> l.
Proof.
  intros (l & El & Ee)%stored_Some Hle.
  pose proof (lookup_lt_Some _ _ _ Ee) as Hl.
  pose proof (Map_Get_live wall w key l e El Ee Hle) as HG.
  apply lookup_key_Some in El as (k & -> & El).
  exists l, (length (heap w)). eexists. split; [exact HG|].
  split; [rewrite Map_Set_eq; reflexivity|]. simpl. split; [|split].
  - unfold load. simpl. by rewrite lookup_app_l, Ee.
  - apply lookup_insert_eq.
  - lia.
Qed.

Lemma iter_ticked w n :
  Nat.iter n ticked w
  = mkWorld (n + now_calls w) (heap w) (container w) (unfindable w).
Proof.
  induction n as [|n IH]; simpl; [by destruct w|]. by rewrite IH.
Qed.

(** X11. With a clock that never reads earlier than it does now, an
    entry that has expired stays absent to [Get] and [Contains] after any
    number of further readings of the clock, as long as nothing writes to
    it. *)
Theorem expired_entries_stay_expired w key e n :
  (forall j, (now_calls w <= j)%nat ->
             UnixNano (wall (now_calls w)) <= UnixNano (wall j)) ->
  stored w key = Some e ->
  next_now wall w > expires e ->
  Map_Get wall key (Nat.iter n ticked w)
    = Ok ((None, false), ticked (Nat.iter n ticked w)) /\
  Map_Contains wall key (Nat.iter n ticked w)
    = Ok (false, ticked (Nat.iter n ticked w)).
Proof.
  intros Hmono (l & El & Ee)%stored_Some Hgt.
  assert (HG : Map_Get wall key (Nat.iter n ticked w)
               = Ok ((None, false), ticked (Nat.iter n ticked w))).
  { rewrite iter_ticked. apply (Map_Get_expired _ _ key l e);
      [by destruct key | done |].
    unfold next_now in *. simpl.
    specialize (Hmono (n + now_calls w)%nat ltac:(lia)). lia. }
  by rewrite Map_Contains_eq, HG.
Qed.

(** What a call does to the heap: nothing, one more [Element], or one
    [Element] replaced; the expiry written always fits in an [int64]. *)
Lemma call_heap (c : MapCall K V) w w' :
  wf w -> call wall c w = Ok (tt, w') ->
  heap w' = heap w \/
  (exists e, heap w' = heap w ++ [e] /\ in_int64 (expires e)) \/
  (exists l e, heap w' = <[l:=e]> (heap w) /\ in_int64 (expires e)).
Proof.
  intros Hwf Hc. destruct (call_hashable c) eqn:Hh;
    [|by rewrite (call_unhashable wall c w Hh) in Hc].
  revert Hc. destruct c as [key v d|key|key|key|key|key|key d| | |]; simpl in *.
  - rewrite Map_Set_eq. destruct key; [| |done]; intros [= <-]; right; left;
      eexists; (split; [done|]); apply wrap64_range.
  - destruct (Map_Get_ok wall w key Hwf Hh) as (p & ok & w1 & HG & Hh' & _).
    unfold bind. rewrite HG. intros [= <-]. by left.
  - destruct (Map_Get_ok wall w key Hwf Hh) as (p & ok & w1 & HG & Hh' & _ & _ & Hp).
    unfold bind at 1. rewrite Map_GetValue_eq, HG. destruct ok.
    + destruct Hp as (l & e & -> & Ee); [done|]. rewrite Hh', Ee.
      intros [= <-]. by left.
    + destruct p; intros [= <-]; by left.
  - destruct (Map_Get_ok wall w key Hwf Hh) as (p & ok & w1 & HG & Hh' & _ & _ & Hp).
    unfold bind at 1. rewrite Map_GetExpires_eq, HG. destruct ok.
    + destruct Hp as (l & e & -> & Ee); [done|]. rewrite Hh', Ee.
      intros [= <-]. by left.
    + destruct p; intros [= <-]; by left.
  - destruct (Map_Get_ok wall w key Hwf Hh) as (p & ok & w1 & HG & Hh' & _).
    unfold bind at 1. rewrite Map_Contains_eq, HG. intros [= <-]. by left.
  - destruct key; [| |done]; intros [= <-]; by left.
  - destruct (Map_Get_ok wall w key Hwf Hh) as (p & ok & w1 & HG & Hh' & _ & _ & Hp).
    unfold bind at 1. rewrite Map_Extend_eq, HG. destruct ok.
    + destruct Hp as (l & e & -> & Ee); [done|]. rewrite Hh', Ee.
      intros [= <-]. right. right. simpl. eexists _, _.
      split; [done|]. apply wrap64_range.
    + destruct p; intros [= <-]; by left.
  - intros [= <-]. by left.
  - intros [= <-]. by left.
  - destruct (Map_Cleanup_spec wall w Hwf) as (w1 & Hrun & _ & Hh' & _).
    rewrite Hrun. intros [= <-]. by left.
Qed.

Lemma calls_inv (cs : list (MapCall K V)) :
  forall w w',
  wf w -> Forall (fun e => in_int64 (expires e)) (heap w) ->
  calls wall cs w = Ok (tt, w') ->
  wf w' /\ Forall (fun e => in_int64 (expires e)) (heap w').
Proof.
  induction cs as [|c cs IH]; intros w w' Hwf Hint; simpl.
  - by intros [= <-].
  - unfold bind. destruct (call wall c w) as [[[] w1]|] eqn:Hc; [|done].
    apply IH; [by apply (call_wf wall c w)|].
    destruct (call_heap c w w1 Hwf Hc) as [->|[(e & -> & He)|(l & e & -> & He)]].
    + done.
    + apply Forall_app. split; [done|]. by apply Forall_singleton.
    + by apply Forall_insert.
Qed.

(** X12. From [New], calls of the map's methods with hashable keys, in
    any number and order, all return; and in every state reached from
    [New] by calls that returned, every pointer in the map refers to an
    allocated [Element], no [Element] is stored under two keys, and
    every stored expiry is within [int64]. *)
Theorem reachable_states_invariant (cs : list (MapCall K V)) :
  (forallb call_hashable cs = true -> exists w, after wall cs New = Some w) /\
  (forall w, after wall cs New = Some w ->
    (forall k l, container w !! k = Some l -> is_Some (heap w !! l)) /\
    (forall l, l ∈ unfindable w -> is_Some (heap w !! l)) /\
    (forall k1 k2 l, container w !! k1 = Some l ->
                     container w !! k2 = Some l -> k1 = k2) /\
    (forall key e, stored w key = Some e -> in_int64 (expires e))).
Proof.
  split.
  - intros Hall. destruct (calls_ok wall cs New wf_New Hall) as (w & Hc & _).
    exists w. unfold after. by rewrite Hc.
  - intros w. unfold after.
    destruct (calls wall cs New) as [[[] w1]|] eqn:Hc; [|done]. intros [= <-].
    destruct (calls_inv cs New w1 wf_New (Forall_nil_2 _) Hc)
      as [(Hal & Hinj & Hual & _) Hint].
    split; [|split; [|split]].
    + intros k l E. apply lookup_lt_is_Some_2. eauto.
    + intros l Hin. apply lookup_lt_is_Some_2.
      rewrite Forall_forall in Hual. by apply Hual.
    + exact Hinj.
    + intros key e (l & _ & Ee)%stored_Some.
      rewrite Forall_forall in Hint. apply Hint.
      apply list_elem_of_lookup. eauto.
Qed.

Lemma after_inv (cs : list (MapCall K V)) w :
  after wall cs New = Some w ->
  wf w /\ Forall (fun e => in_int64 (expires e)) (heap w).
Proof.
  unfold after. destruct (calls wall cs New) as [[[] w1]|] eqn:Hc; [|done].
  intros [= <-]. by apply (calls_inv cs New w1 wf_New (Forall_nil_2 _)).
Qed.

(** X13. In a state reached from [New], when [GetExpires(key)] returns a
    time and [true], that time converted back with [UnixNano] is the
    expiry stored for [key], and it is not before the instant the call
    read. *)
Theorem GetExpires_round_trip (cs : list (MapCall K V)) w key t w' :
  after wall cs New = Some w ->
  Map_GetExpires wall key w = Ok ((t, true), w') ->
  exists e,
    stored w key = Some e /\
    UnixNano t = expires e /\
    next_now wall w <= expires e.
Proof.
  intros [_ Hint]%after_inv HGE.
  rewrite Map_GetExpires_eq, Map_Get_eq in HGE.
  destruct (hashable key); [|done].
  destruct (lookup_key w key) as [l|] eqn:El; [|done].
  destruct (heap w !! l) as [e|] eqn:Ee; [|done].
  destruct (Z.gtb_spec (next_now wall w) (expires e)) as [Hgt|Hle]; [done|].
  simpl in HGE. rewrite Ee in HGE. injection HGE as <- _.
  exists e. split; [apply stored_Some; eauto|]. split; [|done].
  apply wrap64_id. rewrite Forall_forall in Hint. apply Hint.
  apply list_elem_of_lookup. eauto.
Qed.

(** X19. An entry stored under a key that is not equal to itself is out
    of reach of every operation on that key: after [Set] with such a key
    the entry is counted by [Size], but [Get], [GetValue], [Contains] and
    [Extend] do not find it, [Remove] does not remove it, and [Cleanup]
    keeps it whatever its expiry; only [Flush] drops it. *)
Theorem entries_under_irreflexive_keys_leak w (v : iface V) ttl :
  wf w ->
  exists w1,
    Map_Set wall Irreflexive v ttl w = Ok (tt, w1) /\
    Map_Size w1 = Ok (Z.of_nat (len w) + 1, w1) /\
    Map_Get wall Irreflexive w1 = Ok ((None, false), w1) /\
    Map_GetValue wall Irreflexive w1 = Ok (Nil, w1) /\
    Map_Contains wall Irreflexive w1 = Ok (false, w1) /\
    (forall d, Map_Extend wall Irreflexive d w1 = Ok (false, w1)) /\
    Map_Remove Irreflexive w1 = Ok (tt, w1) /\
    (exists w2, Map_Cleanup wall w1 = Ok (tt, w2) /\
                unfindable w2 = unfindable w ++ [length (heap w)] /\
                heap w2 = heap w1) /\
    (exists w3, Map_Flush w1 = Ok (tt, w3) /\ Map_Size w3 = Ok (0, w3)).
Proof.
  intros Hwf.
  destruct (Map_Set wall Irreflexive v ttl w) as [[[] w1]|] eqn:HS;
    [|by rewrite Map_Set_eq in HS].
  pose proof (wf_Set wall w Irreflexive v ttl w1 Hwf HS) as Hwf1.
  rewrite Map_Set_eq in HS. injection HS as <-.
  set (w1 := mkWorld _ _ _ _) in *.
  exists w1. split; [done|].
  assert (HG : Map_Get wall Irreflexive w1 = Ok ((None, false), w1)).
  { by apply Map_Get_absent. }
  rewrite Map_GetValue_eq, Map_Contains_eq, HG.
  split.
  { unfold Map_Size, container_len, len. simpl. rewrite length_app. simpl.
    do 2 f_equal. lia. }
  do 3 (split; [done|]). split; [|split; [done|split]].
  - intros d. by rewrite Map_Extend_eq, HG.
  - destruct (Map_Cleanup_spec wall w1 Hwf1) as (w2 & Hrun & _ & Hheap & Hun & _).
    exists w2. by rewrite Hun, Hheap.
  - eexists. split; [reflexivity|].
    unfold Map_Size, container_len, len. simpl. by rewrite map_size_empty.
Qed.

End MapExtras.

(* ------------------------------------------------------------------ *)
(** * Further properties of the cleaner *)

Section CleanerExtras.
Context {T : Type} `{Ticker T} {S : Type}.
Implicit Types (c : Cleaner (T:=T) (S:=S)) (sy : Sys (T:=T) (S:=S)).

Lemma run_app (evs1 evs2 : list (event (S:=S))) sy :
  run (evs1 ++ evs2) sy =
  match run evs1 sy with
  | Ok sy' => run evs2 sy'
  | Panic m => Panic m
  end.
Proof.
  revert sy. induction evs1 as [|ev evs1 IH]; intros sy; simpl; [done|].
  destruct (step ev sy); [apply IH | done].
Qed.

Lemma step_start_count (ev : event (S:=S)) sy sy' :
  step ev sy = Ok sy' ->
  goroutines sy' = (goroutines sy + (if is_start ev then 1 else 0))%nat.
Proof.
  destruct ev as [fns| | | |pick]; simpl.
  - intros [= <-]. simpl. lia.
  - intros [= <-]. simpl. lia.
  - destruct (Cleaner_Stop (cleaner sy)); [|done]. intros [= <-]. simpl. lia.
  - intros [= <-]. simpl. lia.
  - destruct (goroutines sy) as [|n] eqn:Eg; [intros [= <-]; lia|].
    unfold for_iteration.
    destruct (select_stmt pick sy) as [[[sg sy1]|m]|] eqn:E;
      [|done|intros [= <-]; lia].
    rewrite (select_stmt_Normal _ _ _ _ E). intros [= <-].
    unfold select_stmt in E. destruct (case_ready pick sy); [|done].
    destruct pick; simpl in E.
    + unfold case_tick in E. destruct (run_callbacks _ _); [|done].
      injection E as _ <-. simpl. lia.
    + injection E as _ <-. lia.
Qed.

(** X15. In a run that does not panic the number of goroutines serving
    the cleaner is the number there was plus the number of calls of
    [Start]: every [Start] adds one, a second [Start] a second one, and
    none ever ends. *)
Theorem each_Start_adds_a_goroutine (evs : list (event (S:=S))) sy :
  match run evs sy with
  | Ok sy' =>
      goroutines sy' = (goroutines sy + length (List.filter is_start evs))%nat
  | Panic _ => True
  end.
Proof.
  revert sy. induction evs as [|ev evs IH]; intros sy; simpl; [lia|].
  destruct (step ev sy) as [sy1|] eqn:E; [|done].
  specialize (IH sy1). destruct (run evs sy1) as [sy'|]; [|done].
  apply step_start_count in E. rewrite IH, E.
  destruct (is_start ev); simpl; lia.
Qed.

Lemma step_without_goroutine (ev : event (S:=S)) sy sy' :
  is_start ev = false -> goroutines sy = 0%nat ->
  step ev sy = Ok sy' ->
  shared sy' = shared sy /\ goroutines sy' = 0%nat.
Proof.
  intros Hev Hg. destruct ev as [fns| | | |pick]; simpl; try done.
  - by intros [= <-].
  - destruct (Cleaner_Stop (cleaner sy)); [|done]. by intros [= <-].
  - by intros [= <-].
  - rewrite Hg. by intros [= <-].
Qed.

(** X16. As long as [Start] has not been called no callback ever runs:
    whatever else happens (callbacks registered, the ticker firing,
    [Stop]), the state the callbacks act on stays as it was. *)
Theorem without_Start_no_callback_runs (t : T) (s : S) (evs : list (event (S:=S))) :
  forallb (fun ev => negb (is_start ev)) evs = true ->
  match run evs (boot t s) with
  | Ok sy' => shared sy' = s /\ goroutines sy' = 0%nat
  | Panic _ => True
  end.
Proof.
  assert (Hgen : forall sy, goroutines sy = 0%nat ->
            forallb (fun ev => negb (is_start ev)) evs = true ->
            match run evs sy with
            | Ok sy' => shared sy' = shared sy /\ goroutines sy' = 0%nat
            | Panic _ => True
            end).
  { induction evs as [|ev evs IH]; intros sy Hg Hall; simpl; [done|].
    simpl in Hall. apply andb_prop in Hall as [Hev Hall].
    apply negb_true_iff in Hev.
    destruct (step ev sy) as [sy1|] eqn:E; [|done].
    destruct (step_without_goroutine ev sy sy1 Hev Hg E) as [Hs1 Hg1].
    specialize (IH sy1 Hg1 Hall). destruct (run evs sy1); [|done].
    destruct IH as [-> ->]. done. }
  intros Hall. by apply (Hgen (boot t s)).
Qed.

Lemma step_keeps_closed (ev : event (S:=S)) sy sy' :
  stopChan (cleaner sy) = ChanClosed ->
  step ev sy = Ok sy' -> stopChan (cleaner sy') = ChanClosed.
Proof.
  intros Hc. destruct ev as [fns| | | |pick]; simpl.
  - by intros [= <-].
  - by intros [= <-].
  - by rewrite (Cleaner_Stop_closed _ Hc).
  - by intros [= <-].
  - destruct (goroutines sy) as [|n]; [by intros [= <-]|].
    unfold for_iteration.
    destruct (select_stmt pick sy) as [[[sg sy1]|m]|] eqn:E;
      [|done|by intros [= <-]].
    rewrite (select_stmt_Normal _ _ _ _ E). intros [= <-].
    unfold select_stmt in E. destruct (case_ready pick sy); [|done].
    destruct pick; simpl in E.
    + unfold case_tick in E. destruct (run_callbacks _ _); [|done].
      by injection E as _ <-.
    + by injection E as _ <-.
Qed.

(** X17. Once [Stop] has closed the stop channel it stays closed, and in
    every later state the stop case of the [select] can proceed and
    leads straight back to the [select]: a goroutine that is left spins
    instead of waiting. *)
Theorem after_Stop_the_loop_spins (evs : list (event (S:=S))) sy :
  stopChan (cleaner sy) = ChanClosed ->
  match run evs sy with
  | Ok sy' =>
      stopChan (cleaner sy') = ChanClosed /\
      for_iteration CaseStop sy' = Some (Ok (LoopAgain, sy'))
  | Panic _ => True
  end.
Proof.
  revert sy. induction evs as [|ev evs IH]; intros sy Hc; simpl.
  - split; [done|]. unfold for_iteration, select_stmt. simpl. by rewrite Hc.
  - destruct (step ev sy) as [sy1|] eqn:E; [|done].
    apply IH. by apply (step_keeps_closed ev sy).
Qed.

End CleanerExtras.

Section CleanerLog.
Context {T : Type} `{Ticker T} {A : Type}.

Lemma run_callbacks_log (xs : list A) :
  forall l, run_callbacks (map log_cb xs) l = Ok (l ++ xs).
Proof.
  induction xs as [|x xs IH]; intros l; simpl.
  - by rewrite app_nil_r.
  - unfold log_cb at 1. rewrite IH. by rewrite <- app_assoc.
Qed.

Lemma run_AddCallbacks (batches : list (list A)) :
  forall sy : Sys (T:=T) (S:=list A),
  run (map (fun b => EvAddCallback (map log_cb b)) batches) sy =
  Ok (mkSys (mkCleaner (ticker (cleaner sy)) (stopChan (cleaner sy))
               (onTickQ (cleaner sy) ++ map log_cb (concat batches)))
            (shared sy) (goroutines sy)).
Proof.
  induction batches as [|b batches IH]; intros sy; simpl.
  - rewrite app_nil_r. by destruct sy as [[] ? ?].
  - rewrite IH. simpl. by rewrite map_app, app_assoc.
Qed.

(** X14. On a tick every registered callback runs exactly once, in the
    order of registration, across the calls of [AddCallback] that
    registered them: with callbacks that each append their name to a
    log, one tick appends all the names in that order. *)
Theorem callbacks_run_in_registration_order (t : T) (batches : list (list A))
    (l : list A) :
  Ticker_Chan_ready t = true ->
  run (map (fun b => EvAddCallback (map log_cb b)) batches
         ++ [EvStart; EvIterate CaseTick]) (boot t l)
  = Ok (mkSys (mkCleaner (Ticker_Chan_recv t) ChanOpen
                 (map log_cb (concat batches)))
              (l ++ concat batches) 1).
Proof.
  intros Hready. rewrite run_app, run_AddCallbacks. simpl.
  unfold for_iteration, select_stmt, case_ready, case_tick. simpl.
  rewrite Hready. by rewrite run_callbacks_log.
Qed.

End CleanerLog.

Section Sweeper.
Context {K : Type} `{Countable K} {V : Type}.
Context {T : Type} `{Ticker T}.
Variable wall : nat -> Time.

(** X18. A map registered with [AddCleanable] is swept by the tick: when
    the goroutine serves a tick, the state of the map becomes the one
    [Cleanup] produces, so every entry that a lookup finds and whose
    expiry is before the instant read is gone, the other entries that a
    lookup finds are kept, and so are all the entries stored under keys
    not equal to themselves. *)
Theorem tick_sweeps_the_registered_map (t : T) (w : World (K:=K) (V:=V)) (g : nat) :
  wf w ->
  Ticker_Chan_ready t = true ->
  exists w',
    Map_Cleanup wall w = Ok (tt, w') /\
    step (EvIterate CaseTick)
         (mkSys (Cleaner_AddCleanable (Map_Cleanable wall) (NewCleanerCustom t))
                w (Datatypes.S g))
    = Ok (mkSys (mkCleaner (Ticker_Chan_recv t) ChanOpen
                   [Cleanup (Map_Cleanable wall)])
                w' (Datatypes.S g)) /\
    (forall key e, stored w key = Some e -> expires e < next_now wall w ->
                   lookup_key w' key = None) /\
    (forall key e, stored w key = Some e -> next_now wall w <= expires e ->
                   stored w' key = Some e) /\
    unfindable w' = unfindable w /\ heap w' = heap w.
Proof.
  intros Hwf Hready.
  destruct (Map_Cleanup_spec wall w Hwf)
    as (w' & Hrun & _ & Hheap & Hun & Hsub & Hst).
  assert (Hwf' : wf w').
  { apply (wf_shrink w); [by rewrite Hheap | done | done | done]. }
  exists w'. split; [done|]. split; [|split; [|split; [|done]]].
  - simpl. unfold for_iteration, select_stmt, case_ready, case_tick. simpl.
    rewrite Hready. simpl. by rewrite Hrun.
  - intros key e Hs Hlt. apply wf_stored_None; [done|]. rewrite Hst, Hs.
    destruct (Z.gtb_spec (next_now wall w) (expires e)); [done | lia].
  - intros key e Hs Hle. rewrite Hst, Hs.
    destruct (Z.gtb_spec (next_now wall w) (expires e)); [lia | done].
Qed.

End Sweeper.
(* ------------------------------------------------------------------ *)
(** * The further properties at concrete inputs *)

(** Three keys set on the empty map, one of them with a duration that
    has already elapsed: [Size] is 3. *)
Lemma Size_counts_distinct_keys_witness :
  exists w' : World (K:=string) (V:=Z),
    calls demo_clock
      (set_each [("a", Box 1, 10); ("b", Nil, 20); ("c", Box 3, -5)]) New
      = Ok (tt, w') /\
    Map_Size w' = Ok (3, w').
Proof.
  destruct (Size_counts_distinct_keys demo_clock
              [("a", Box 1, 10); ("b", Nil, 20); ("c", Box 3, -5)] New)
    as (w' & Hc & Hs).
  - by apply (bool_decide_unpack _); vm_compute.
  - intros i _. apply lookup_empty.
  - exists w'. split; [exact Hc | exact Hs].
Defined.

(** [Remove("b")] on [two_entries]: ["b"] is gone and the size is 1. *)
Lemma Remove_then_absent_witness :
  exists w',
    Map_Remove (Plain "b") two_entries = Ok (tt, w') /\
    Map_Contains demo_clock (Plain "b") w' = Ok (false, w') /\
    Map_Size w' = Ok (1, w').
Proof.
  destruct (Remove_then_absent demo_clock two_entries (Plain "b") eq_refl)
    as (w' & HR & _ & _ & HC & _ & _ & HS).
  exists w'. split; [exact HR|]. split; [exact HC | exact HS].
Defined.

(** [Set("c", ...)] on [two_entries]: the size becomes 3. *)
Lemma Set_grows_Size_for_new_keys_only_witness :
  exists w',
    Map_Set demo_clock (Plain "c") (Box 3) 7 two_entries = Ok (tt, w') /\
    Map_Size w' = Ok (3, w').
Proof.
  destruct (Set_grows_Size_for_new_keys_only demo_clock two_entries
              (Plain "c") (Box 3) 7 eq_refl) as (w' & HS & Hsz).
  exists w'. split; [exact HS | exact Hsz].
Defined.

(** In [two_entries] the sweep at 1020 removes ["b"]: the size drops. *)
Lemma Cleanup_shrinks_to_the_unexpired_witness :
  exists w',
    Map_Cleanup demo_clock two_entries = Ok (tt, w') /\
    (len w' < len two_entries)%nat.
Proof.
  destruct (Cleanup_shrinks_to_the_unexpired demo_clock two_entries
              (wf_reach _ _)) as (w' & Hrun & _ & _ & _ & Hlt).
  exists w'. split; [exact Hrun|]. apply Hlt.
  exists (Plain "b"), (mkElement (Box 2) 1015). by vm_compute.
Defined.

Lemma Cleanup_again_removes_nothing_witness :
  exists w1 w2,
    Map_Cleanup late_clock two_entries = Ok (tt, w1) /\
    Map_Cleanup late_clock w1 = Ok (tt, w2) /\
    container w2 = container w1.
Proof.
  destruct (Cleanup_again_removes_nothing late_clock two_entries
              (wf_reach _ _)) as (w1 & w2 & H1 & H2 & Hc & _);
    [by vm_compute|].
  exists w1, w2. split; [exact H1|]. split; [exact H2 | exact Hc].
Defined.

(** [Set("a", 1, 10)] at 1000, [Extend("a", 5)]: [GetExpires] returns
    1015. *)
Lemma Set_Extend_GetExpires_witness :
  exists (w1 w2 w3 : World (K:=string) (V:=Z)),
    Map_Set still_clock (Plain "a") (Box 1) 10 New = Ok (tt, w1) /\
    Map_Extend still_clock (Plain "a") 5 w1 = Ok (true, w2) /\
    Map_GetExpires still_clock (Plain "a") w2 = Ok ((1015, true), w3).
Proof.
  destruct (Set_Extend_GetExpires still_clock New "a" (Box 1) 10 5)
    as (w1 & w2 & w3 & HS & HE & HG & _);
    [by vm_compute | by vm_compute | by vm_compute | by vm_compute |].
  exists w1, w2, w3. split; [exact HS|]. split; [exact HE | exact HG].
Defined.

(** ["a"] expires at 1025; extended by 100 and then by -50 it expires at
    1075. *)
Lemma Extend_twice_adds_the_sum_witness :
  exists w1 w2,
    Map_Extend demo_clock (Plain "a") 100 two_entries = Ok (true, w1) /\
    Map_Extend demo_clock (Plain "a") (-50) w1 = Ok (true, w2) /\
    stored w2 (Plain "a") = Some (mkElement (Box 1) 1075).
Proof.
  destruct (Extend_twice_adds_the_sum demo_clock two_entries (Plain "a")
              (mkElement (Box 1) 1025) 100 (-50))
    as (w1 & w2 & H1 & H2 & Hs);
    [by vm_compute | by vm_compute | by vm_compute |].
  exists w1, w2. split; [exact H1|]. split; [exact H2 | exact Hs].
Defined.


Lemma Get_pointer_sees_Extend_witness :
  exists l w1,
    Map_Get still_clock (Plain "a") two_entries
      = Ok ((Some l, true), ticked two_entries) /\
    Map_Extend still_clock (Plain "a") 100 (ticked two_entries) = Ok (true, w1) /\
    Element_Expires (Some l) w1 = Ok (1125, w1).
Proof.
  destruct (Get_pointer_sees_Extend still_clock two_entries (Plain "a")
              (mkElement (Box 1) 1025) 100)
    as (l & w1 & HG & HE & HX & _);
    [by vm_compute | by vm_compute | by vm_compute |].
  exists l, w1. split; [exact HG|]. split; [exact HE | exact HX].
Defined.

Lemma Set_leaves_the_old_Element_witness :
  exists l w1,
    Map_Get demo_clock (Plain "a") two_entries
      = Ok ((Some l, true), ticked two_entries) /\
    Map_Set demo_clock (Plain "a") (Box 9) 500 (ticked two_entries) = Ok (tt, w1) /\
    load (Some l) w1 = Ok (mkElement (Box 1) 1025, w1).
Proof.
  destruct (Set_leaves_the_old_Element demo_clock two_entries (Plain "a")
              (mkElement (Box 1) 1025) (Box 9) 500)
    as (l & l' & w1 & HG & HS & HL & _);
    [by vm_compute | by vm_compute |].
  exists l, w1. split; [exact HG|]. split; [exact HS | exact HL].
Defined.

(** Under the clock that stands at 2000, ["b"] (expiry 1015) is absent
    now and after five more readings. *)
Lemma expired_entries_stay_expired_witness :
  Map_Contains late_clock (Plain "b") (Nat.iter 5 ticked two_entries)
  = Ok (false, ticked (Nat.iter 5 ticked two_entries)).
Proof.
  refine (proj2 (expired_entries_stay_expired late_clock two_entries (Plain "b")
                   (mkElement (Box 2) 1015) 5 _ _ _)).
  - intros j _. unfold late_clock, clock_from.
    rewrite !Z.mul_0_l. apply Z.le_refl.
  - by vm_compute.
  - by vm_compute.
Defined.

(** The two [Set]s behind [two_entries] return, and the state they
    reach holds only expiries within [int64]. *)
Lemma reachable_states_invariant_witness :
  exists w : World (K:=string) (V:=Z),
    after demo_clock
      [CallSet (Plain "a") (Box 1) 25; CallSet (Plain "b") (Box 2) 5] New
      = Some w /\
    (forall key e, stored w key = Some e -> in_int64 (expires e)).
Proof.
  destruct (reachable_states_invariant demo_clock
              [CallSet (Plain "a") (Box 1) 25; CallSet (Plain "b") (Box 2) 5])
    as [Hret Hinv].
  destruct (Hret eq_refl) as (w & Hw).
  exists w. split; [exact Hw|].
  exact (proj2 (proj2 (proj2 (Hinv w Hw)))).
Defined.

Lemma GetExpires_round_trip_witness :
  exists e,
    stored two_entries (Plain "a") = Some e /\
    UnixNano 1025 = expires e /\
    next_now demo_clock two_entries <= expires e.
Proof.
  apply (GetExpires_round_trip demo_clock
           [CallSet (Plain "a") (Box 1) 25; CallSet (Plain "b") (Box 2) 5]
           two_entries (Plain "a") 1025 (ticked two_entries)); by vm_compute.
Defined.

(** On [two_entries], an entry set under a key not equal to itself is
    counted (the size is 3) but [Contains] does not find it. *)
Lemma entries_under_irreflexive_keys_leak_witness :
  exists w1,
    Map_Set demo_clock Irreflexive (Box 7) 5 two_entries = Ok (tt, w1) /\
    Map_Size w1 = Ok (3, w1) /\
    Map_Contains demo_clock Irreflexive w1 = Ok (false, w1).
Proof.
  destruct (entries_under_irreflexive_keys_leak demo_clock two_entries
              (Box 7) 5 (wf_reach _ _))
    as (w1 & HS & Hsz & _ & _ & HC & _).
  exists w1. split; [exact HS|]. split; [exact Hsz | exact HC].
Defined.

(** Callbacks 1 and 2 registered together, 3 later: one tick logs
    1, 2, 3. *)
Lemma callbacks_run_in_registration_order_witness :
  run (map (fun b => EvAddCallback (map log_cb b)) [[1; 2]; [3]]
         ++ [EvStart; EvIterate CaseTick]) (boot (mkManualTicker 1) [])
  = Ok (mkSys (mkCleaner (mkManualTicker 0) ChanOpen
                 (map log_cb [1; 2; 3]))
              [1; 2; 3] 1).
Proof.
  exact (callbacks_run_in_registration_order (mkManualTicker 1)
           [[1; 2]; [3]] [] eq_refl).
Defined.

(** A callback registered, the ticker fired, but no [Start]: the counter
    stays at 0. *)
Lemma without_Start_no_callback_runs_witness :
  match run [EvAddCallback [count_cb]; EvFire; EvIterate CaseTick; EvStop]
            (boot (mkManualTicker 0) 0%nat) with
  | Ok sy' => shared sy' = 0%nat /\ goroutines sy' = 0%nat
  | Panic _ => True
  end.
Proof.
  exact (without_Start_no_callback_runs (mkManualTicker 0) 0%nat
           [EvAddCallback [count_cb]; EvFire; EvIterate CaseTick; EvStop]
           eq_refl).
Defined.

Lemma after_Stop_the_loop_spins_witness :
  match run [EvFire; EvIterate CaseTick]
            (mkSys (mkCleaner (mkManualTicker 0) ChanClosed [count_cb]) 0%nat 1%nat) with
  | Ok sy' =>
      stopChan (cleaner sy') = ChanClosed /\
      for_iteration CaseStop sy' = Some (Ok (LoopAgain, sy'))
  | Panic _ => True
  end.
Proof.
  exact (after_Stop_the_loop_spins [EvFire; EvIterate CaseTick]
           (mkSys (mkCleaner (mkManualTicker 0) ChanClosed [count_cb]) 0%nat 1%nat)
           eq_refl).
Defined.

(** [two_entries] registered with a cleaner; the tick served at 1020
    removes ["b"] and keeps ["a"]. *)
Lemma tick_sweeps_the_registered_map_witness :
  exists w',
    Map_Cleanup demo_clock two_entries = Ok (tt, w') /\
    lookup_key w' (Plain "b") = None /\
    stored w' (Plain "a") = Some (mkElement (Box 1) 1025).
Proof.
  destruct (tick_sweeps_the_registered_map demo_clock (mkManualTicker 1)
              two_entries 0)
    as (w' & Hrun & _ & Hdel & Hkeep & _); [apply wf_reach | reflexivity |].
  exists w'. split; [exact Hrun|]. split.
  - apply (Hdel (Plain "b") (mkElement (Box 2) 1015)); by vm_compute.
  - apply (Hkeep (Plain "a") (mkElement (Box 1) 1025)); by vm_compute.
Defined.
